(** * wordreorder: section extraction, outline construction and reconciliation

    A shallow embedding of [wordreorder.py].  The document library and the
    YAML library are outside the embedding: a document is the ordered list of
    its body elements, an outline file is the Python value that
    [yaml.safe_load] returns, and writing then reading an outline file is
    taken to give back the value that was written.

    Characters are code points below 256, carried by [ascii]; Python's
    [str.strip], [str.lower] and [int] are written out for that range.

    Dictionaries and sets keyed by heading text are [gmap] and [gset]; the
    order in which Python iterates over a set is a parameter of the run.  The
    node dictionaries and child lists that [build_nested_toc] shares and
    mutates live in an explicit store.  Of the printed messages, those that
    carry data are kept as a log; banners and progress bars are left out. *)

From Stdlib Require Import ZArith String Ascii List Lia.
From stdpp Require Import base option list gmap strings sorting.

Local Open Scope string_scope.
Local Open Scope Z_scope.
Local Open Scope list_scope.

Set Warnings "-register-all,-clear-no-such-hyp".

#[local] Arguments String.eqb : simpl never.

(** * The program *)

(** ** Python strings *)

(** [str.isspace] on one character: TAB..CR, FS..US, space, NEL and NBSP. *)
Definition is_space (c : ascii) : bool :=
  let n := nat_of_ascii c in
  ((9 <=? n) && (n <=? 13) || (28 <=? n) && (n <=? 32)
   || (n =? 133) || (n =? 160))%nat.

(** [str.lower] on one character: A..Z, and the Latin-1 capitals
    U+00C0..U+00DE except the multiplication sign U+00D7. *)
Definition lower_char (c : ascii) : ascii :=
  let n := nat_of_ascii c in
  if ((65 <=? n) && (n <=? 90)
      || (192 <=? n) && (n <=? 222) && negb (n =? 215))%nat
  then ascii_of_nat (n + 32) else c.

Fixpoint lower (s : string) : string :=
  match s with
  | EmptyString => EmptyString
  | String c s' => String (lower_char c) (lower s')
  end.

(** White space dropped from the left and from the right; [sp] tells which
    characters count as white space. *)
Fixpoint lstrip_by (sp : ascii → bool) (s : string) : string :=
  match s with
  | EmptyString => EmptyString
  | String c s' => if sp c then lstrip_by sp s' else s
  end.

Fixpoint rstrip_by (sp : ascii → bool) (s : string) : string :=
  match s with
  | EmptyString => EmptyString
  | String c s' =>
      match rstrip_by sp s' with
      | EmptyString => if sp c then EmptyString else String c EmptyString
      | r => String c r
      end
  end.

(** [s.strip()] *)
Definition strip (s : string) : string := rstrip_by is_space (lstrip_by is_space s).

(** [s.startswith(p)] *)
Fixpoint startswith (p s : string) : bool :=
  match p, s with
  | EmptyString, _ => true
  | String a p', String b s' => if Ascii.eqb a b then startswith p' s' else false
  | String _ _, EmptyString => false
  end.

(** [s.endswith(p)] *)
Definition endswith (p s : string) : bool :=
  let lp := String.length p in
  let ls := String.length s in
  ((lp <=? ls)%nat && String.eqb (substring (ls - lp) lp s) p).

(** [s.split(" ")]: one token per single space, empty tokens kept, never an
    empty result. *)
Fixpoint split_space (s : string) : list string :=
  match s with
  | EmptyString => [EmptyString]
  | String c s' =>
      if Ascii.eqb c " "%char then EmptyString :: split_space s'
      else match split_space s' with
           | t :: ts => String c t :: ts
           | [] => [String c EmptyString]
           end
  end.

(** [l[-1]], which raises [IndexError] on an empty list. *)
Definition list_last {A} (l : list A) : option A := last l.

Definition digit_val (c : ascii) : option Z :=
  let n := nat_of_ascii c in
  if ((48 <=? n) && (n <=? 57))%nat then Some (Z.of_nat (n - 48)) else None.

(** The digits of a decimal literal for [int]: at least one digit, single
    underscores allowed between digits only.  [prev] tells what the previous
    character was: [None] at the start, [Some true] after a digit,
    [Some false] after an underscore. *)
Fixpoint int_digits (prev : option bool) (acc : Z) (s : string) : option Z :=
  match s with
  | EmptyString => match prev with Some true => Some acc | _ => None end
  | String c s' =>
      match digit_val c with
      | Some d => int_digits (Some true) (10 * acc + d) s'
      | None =>
          if Ascii.eqb c "_"%char then
            match prev with
            | Some true => int_digits (Some false) acc s'
            | _ => None
            end
          else None
      end
  end.

(** The white space that [int] skips around the digits: TAB..CR, space, NEL
    and NBSP (FS..US are not skipped). *)
Definition is_int_space (c : ascii) : bool :=
  let n := nat_of_ascii c in
  ((9 <=? n) && (n <=? 13) || (n =? 32) || (n =? 133) || (n =? 160))%nat.

(** [int(s)] for a string: surrounding white space dropped, an optional sign,
    then the digits.  [None] stands for [ValueError]. *)
Definition py_int (s : string) : option Z :=
  match rstrip_by is_int_space (lstrip_by is_int_space s) with
  | String "+" r => int_digits None 0 r
  | String "-" r => Z.opp <$> int_digits None 0 r
  | r => int_digits None 0 r
  end.

(** ** Heading styles *)

(** A paragraph as the document library presents it: the name of its style
    ([None] when the paragraph has no style or the style has no name) and its
    text. *)
Record paragraph := Paragraph {
  style_name : option string;
  para_text : string
}.

(** [is_heading_style(paragraph, max_level)]: [Some (level, text)] for the
    pair the source returns, [None] for its [(None, None)]. *)
Definition is_heading_style (p : paragraph) (max_level : Z) : option (Z * string) :=
  match style_name p with
  | None => None
  | Some EmptyString => None
  | Some name =>
      let style_name_lower := lower (strip name) in
      if startswith "heading " style_name_lower then
        match list_last (split_space name) with
        | None => None
        | Some tok =>
            match py_int tok with
            | None => None
            | Some level =>
                if (1 <=? level) && (level <=? max_level)
                then Some (level, para_text p) else None
            end
        end
      else None
  end.

(** ** Structure extraction *)

(** A body element of the source document.  [el_id] stands for the identity
    of the XML element, [el_tag] for its qualified tag, and [el_para] for the
    paragraph proxy of [document.paragraphs] whose [_element] is this very
    element ([None] when there is none). *)
Record element := Element {
  el_id : nat;
  el_tag : string;
  el_para : option paragraph
}.

(** A section dictionary [{'text': .., 'level': .., 'elements': ..}];
    [sec_elements] is [None] where the source stores [None]. *)
Record section := Sect {
  sec_text : string;
  sec_level : Z;
  sec_elements : option (list element)
}.

Definition PREAMBLE : string := "__PREAMBLE__".

(** The loop state of [parse_document_structure]. *)
Record scan_state := ScanState {
  sections : list section;
  current_section_elements : option (list element);
  current_heading_info : string * Z
}.

(** Truth value of [x is not None and x] for a list that may be [None]. *)
Definition truthy_list {A} (x : option (list A)) : bool :=
  match x with
  | Some (_ :: _) => true
  | _ => false
  end.

(** The guarded [sections.append({...})] of lines 54-59 and 66-71. *)
Definition close_section (include_elements : bool) (st : scan_state) : list section :=
  if (0 <? snd (current_heading_info st)) || truthy_list (current_section_elements st)
  then sections st ++
       [Sect (strip (fst (current_heading_info st)))
             (snd (current_heading_info st))
             (if include_elements then current_section_elements st else None)]
  else sections st.

(** Lines 63-64: the element joins the current buffer. *)
Definition keep_element (include_elements : bool) (st : scan_state) (e : element)
  : scan_state :=
  match current_section_elements st with
  | Some buf =>
      if include_elements
      then ScanState (sections st) (Some (buf ++ [e])) (current_heading_info st)
      else st
  | None => st
  end.

(** Lines 44-50: [para_obj], the paragraph proxy found for an element whose
    tag ends in "}p". *)
Definition scanned_paragraph (e : element) : option paragraph :=
  let is_paragraph := endswith "}p" (el_tag e) in
  if is_paragraph then el_para e else None.

(** One iteration of the loop over [document.element.body]. *)
Definition scan_element (max_level : Z) (include_elements : bool)
    (st : scan_state) (e : element) : scan_state :=
  match scanned_paragraph e with
  | Some para_obj =>
      match is_heading_style para_obj max_level with
      | Some (level, heading_text) =>
          ScanState (close_section include_elements st)
                    (if include_elements then Some [e] else None)
                    (heading_text, level)
      | None => keep_element include_elements st e
      end
  | None => keep_element include_elements st e
  end.

Definition scan_init (include_elements : bool) : scan_state :=
  ScanState [] (if include_elements then Some [] else None) (PREAMBLE, 0).

(** Line 73-74: a leading preamble section without elements is popped. *)
Definition drop_empty_preamble (include_elements : bool) (ss : list section)
  : list section :=
  match ss with
  | s :: rest =>
      if include_elements && String.eqb (sec_text s) PREAMBLE
         && negb (truthy_list (sec_elements s))
      then rest else ss
  | [] => ss
  end.

(** [parse_document_structure(doc_path, max_level, include_elements)].  The
    argument is the body of the opened document, [None] when the document
    library fails to open it; the result is the list of sections ([None] for
    the source's [None, None]). *)
Definition parse_document_structure (doc : option (list element)) (max_level : Z)
    (include_elements : bool) : option (list section) :=
  match doc with
  | None => None
  | Some body =>
      let st := fold_left (scan_element max_level include_elements) body
                          (scan_init include_elements) in
      Some (drop_empty_preamble include_elements (close_section include_elements st))
  end.

(** ** The store of Python objects used by the outline builder

    [build_nested_toc] shares its node dictionaries and child lists between
    the result and the stack, and mutates them in place; the store keeps one
    cell per dictionary and per list, addressed by allocation order. *)

Abbreviation addr := nat (only parsing).

Inductive value :=
| VStr (s : string)
| VInt (z : Z)
| VList (r : addr).

(** A dictionary with string keys, in insertion order. *)
Abbreviation pydict := (list (string * value)) (only parsing).

Fixpoint dict_get {V} (k : string) (d : list (string * V)) : option V :=
  match d with
  | [] => None
  | (k', v) :: d' => if String.eqb k k' then Some v else dict_get k d'
  end.

Definition dict_has {V} (k : string) (d : list (string * V)) : bool :=
  match dict_get k d with Some _ => true | None => false end.

(** [d[k] = v]: an existing key keeps its place, a new key goes last. *)
Fixpoint dict_set {V} (k : string) (v : V) (d : list (string * V)) : list (string * V) :=
  match d with
  | [] => [(k, v)]
  | (k', v') :: d' =>
      if String.eqb k k' then (k', v) :: d' else (k', v') :: dict_set k v d'
  end.

(** [del d[k]] for a key that is present. *)
Fixpoint dict_del {V} (k : string) (d : list (string * V)) : list (string * V) :=
  match d with
  | [] => []
  | (k', v') :: d' => if String.eqb k k' then d' else (k', v') :: dict_del k d'
  end.

Record heap := Heap {
  dicts : list pydict;
  lists : list (list addr)
}.

Definition alloc_dict (d : pydict) (h : heap) : addr * heap :=
  (length (dicts h), Heap (dicts h ++ [d]) (lists h)).

Definition alloc_list (l : list addr) (h : heap) : addr * heap :=
  (length (lists h), Heap (dicts h) (lists h ++ [l])).

(** [r.append(a)] *)
Definition list_append (r : addr) (a : addr) (h : heap) : option heap :=
  l ← lists h !! r;
  Some (Heap (dicts h) (<[r := l ++ [a]]> (lists h))).

(** [r[-1]] *)
Definition heap_last (r : addr) (h : heap) : option addr :=
  l ← lists h !! r; list_last l.

(** [a[k] = v] *)
Definition dict_store (a : addr) (k : string) (v : value) (h : heap) : option heap :=
  d ← dicts h !! a;
  Some (Heap (<[a := dict_set k v d]> (dicts h)) (lists h)).

(** [a['children']], as a reference to a list. *)
Definition children_of (a : addr) (h : heap) : option addr :=
  d ← dicts h !! a;
  v ← dict_get "children" d;
  match v with VList r => Some r | _ => None end.

(** [if 'children' not in a: a['children'] = []] *)
Definition ensure_children (a : addr) (h : heap) : option heap :=
  d ← dicts h !! a;
  if dict_has "children" d then Some h
  else let '(r, h1) := alloc_list [] h in dict_store a "children" (VList r) h1.

(** How a stretch of code ends: it runs through, the function returns
    [False], or an exception escapes. *)
Inductive outcome (A : Type) :=
| Done (x : A)
| ReturnedFalse
| Raised.
Arguments Done {A} x.
Arguments ReturnedFalse {A}.
Arguments Raised {A}.

(** ** The outline builder *)

(** [while stack and stack[-1][0] >= level: stack.pop()]; the top of the
    stack is the head of the list. *)
Fixpoint pop_while (level : Z) (stack : list (Z * addr)) : list (Z * addr) :=
  match stack with
  | [] => []
  | (l, r) :: rest => if level <=? l then pop_while level rest else stack
  end.

(** One iteration of the loop of [build_nested_toc] over [flat_sections];
    [nested_toc] is the address of the result list.  [None] stands for an
    exception ([IndexError], [KeyError]). *)
Definition build_step (nested_toc : addr) (st : heap * list (Z * addr))
    (s : section) : option (heap * list (Z * addr)) :=
  let '(h, stack) := st in
  let level := sec_level s in
  if level =? 0 then Some st
  else
    let '(node, h) := alloc_dict [("heading", VStr (sec_text s)); ("level", VInt level)] h in
    let stack := pop_while level stack in
    h ← match stack with
        | [] => list_append nested_toc node h
        | (_, parent_node_list) :: _ =>
            parent ← heap_last parent_node_list h;
            h ← ensure_children parent h;
            parent ← heap_last parent_node_list h;
            r ← children_of parent h;
            list_append r node h
        end;
    h ← ensure_children node h;
    '(r, h) ← match stack with
              | [] => Some (alloc_list [node] h)
              | (_, top_list) :: _ =>
                  top ← heap_last top_list h;
                  r ← children_of top h;
                  Some (r, h)
              end;
    Some (h, (level, r) :: stack).

(** The loop itself. *)
Fixpoint build_loop (nested_toc : addr) (st : heap * list (Z * addr))
    (flat_sections : list section) : option (heap * list (Z * addr)) :=
  match flat_sections with
  | [] => Some st
  | s :: rest =>
      st' ← build_step nested_toc st s;
      build_loop nested_toc st' rest
  end.

(** [cleanup_empty_children(node_list)]; [fuel] bounds the recursion depth. *)
Fixpoint cleanup_empty_children (fuel : nat) (node_list : addr) (h : heap)
  : option heap :=
  match fuel with
  | O => None
  | S fuel =>
      nodes ← lists h !! node_list;
      foldl (fun (acc : option heap) (node : addr) =>
               h ← acc;
               d ← dicts h !! node;
               if dict_has "children" d then
                 r ← children_of node h;
                 l ← lists h !! r;
                 h ← (if bool_decide (l = []) then Some h
                      else cleanup_empty_children fuel r h);
                 r ← children_of node h;
                 l ← lists h !! r;
                 if bool_decide (l = []) then
                   d ← dicts h !! node;
                   Some (Heap (<[node := dict_del "children" d]> (dicts h)) (lists h))
                 else Some h
               else Some h)
            (Some h) nodes
  end.

(** Python values as [yaml.safe_dump] writes them and [yaml.safe_load]
    returns them.  The program looks dictionaries up by string keys only, so
    other keys are left out; other scalars behave as [PNone] does. *)
Inductive pyval :=
| PNone
| PBool (b : bool)
| PInt (z : Z)
| PStr (s : string)
| PList (l : list pyval)
| PDict (kvs : list (string * pyval)).

(** The value a dictionary of the store stands for; [fuel] bounds the
    nesting depth. *)
Fixpoint reify_node (fuel : nat) (h : heap) (a : addr) : option pyval :=
  match fuel with
  | O => None
  | S fuel =>
      d ← dicts h !! a;
      kvs ← mapM (fun kv : string * value =>
                    match kv.2 with
                    | VStr s => Some (kv.1, PStr s)
                    | VInt z => Some (kv.1, PInt z)
                    | VList r =>
                        l ← lists h !! r;
                        items ← mapM (reify_node fuel h) l;
                        Some (kv.1, PList items)
                    end) d;
      Some (PDict kvs)
  end.

Definition reify_list (fuel : nat) (h : heap) (r : addr) : option (list pyval) :=
  l ← lists h !! r; mapM (reify_node fuel h) l.

Definition empty_heap : heap := Heap [] [].

(** [build_nested_toc(flat_sections)]: the returned list, read out of the
    store.  The nesting depth never exceeds the number of sections, which is
    the recursion bound given to the clean-up and to the read-out. *)
Definition build_nested_toc (flat_sections : list section) : option (list pyval) :=
  let '(nested_toc, h) := alloc_list [] empty_heap in
  '(h, _) ← build_loop nested_toc (h, []) flat_sections;
  h ← cleanup_empty_children (S (length flat_sections)) nested_toc h;
  reify_list (S (length flat_sections)) h nested_toc.

(** [run_generate(args)]: how the call ends and the value written to the
    outline file.  [write_ok] tells whether opening and dumping succeed; an
    exception inside [build_nested_toc] would escape. *)
Definition run_generate (doc : option (list element)) (max_level : Z)
    (write_ok : bool) : outcome bool * option pyval :=
  match parse_document_structure doc max_level false with
  | None => (Done false, None)
  | Some flat_sections =>
      match build_nested_toc flat_sections with
      | None => (Raised, None)
      | Some nested_toc_structure =>
          let yaml_data := PDict [("toc", PList nested_toc_structure)] in
          if write_ok then (Done true, Some yaml_data) else (Done false, None)
      end
  end.

(** ** The outline loader *)

(** [extract_headings] on one item: the headings it contributes, in
    pre-order.  The inner loops look up ['children'] and walk the child list. *)
Fixpoint extract_item (item : pyval) : list pyval :=
  match item with
  | PStr s => [PStr s]
  | PDict kvs =>
      match dict_get "heading" kvs with
      | Some hd =>
          hd :: (fix children (kvs : list (string * pyval)) : list pyval :=
                   match kvs with
                   | [] => []
                   | (k, v) :: kvs' =>
                       if String.eqb "children" k then
                         match v with
                         | PList l =>
                             (fix each (l : list pyval) : list pyval :=
                                match l with
                                | [] => []
                                | x :: l' => extract_item x ++ each l'
                                end) l
                         | _ => []
                         end
                       else children kvs'
                   end) kvs
      | None => []
      end
  | _ => []
  end.

(** [extract_headings(node_list)] *)
Definition extract_headings (node_list : list pyval) : list pyval :=
  flat_map extract_item node_list.

(** [load_toc_config_for_reorganize(toc_path)]; the argument is the value
    [yaml.safe_load] returns, [None] when the file cannot be read or parsed. *)
Definition load_toc_config_for_reorganize (file : option pyval)
  : option (list pyval) :=
  match file with
  | Some (PDict config) =>
      match dict_get "toc" config with
      | Some (PList toc_data) =>
          match extract_headings toc_data with
          | [] => None
          | flat_headings => Some flat_headings
          end
      | _ => None
      end
  | _ => None
  end.

(** ** Reorganizing *)

Inductive unmatched_policy := UAppend | UDelete | UWarn.
Inductive missing_policy := MError | MWarn | MIgnore.

Global Instance unmatched_policy_eq_dec : EqDecision unmatched_policy.
Proof. solve_decision. Defined.

Global Instance missing_policy_eq_dec : EqDecision missing_policy.
Proof. solve_decision. Defined.

(** The parsed command line of [reorganize]. *)
Record args := Args {
  unmatched : unmatched_policy;
  missing : missing_policy;
  verbose : bool;
  max_level : Z
}.

(** What the run depends on outside the program text: the order in which
    Python iterates over a set of strings, which element copies raise, and
    whether saving the new document succeeds. *)
Record env := Env {
  set_iter : gset string → list string;
  copy_fails : element → bool;
  save_ok : bool
}.

(** The messages of [run_reorganize] that carry data (banners are left out). *)
Inductive event :=
| WarnDuplicate (heading : string)
| ErrMissing (headings : list string)
| WarnMissing (headings : list string)
| InfoUnmatched (policy : unmatched_policy) (headings : list string)
| MsgPreamble
| MsgScheduling (heading : string)
| MsgSkipping (heading : string)
| MsgAppending (n : nat)
| WarnNoSections
| WarnCopyErrors (n : nat).

Global Instance event_eq_dec : EqDecision event.
Proof. solve_decision. Defined.

(** The state of the loop of lines 187-203. *)
Record map_state := MapState {
  source_sections_map : gmap string section;
  duplicate_headings : gset string;
  headings_seen : gset string;
  preamble_section : option section;
  map_log : list event
}.

Definition map_init : map_state := MapState ∅ ∅ ∅ None [].

(** One iteration of the loop of lines 191-203. *)
Definition map_step (st : map_state) (s : section) : map_state :=
  let heading_text := sec_text s in
  if String.eqb heading_text PREAMBLE then
    MapState (source_sections_map st) (duplicate_headings st) (headings_seen st)
             (Some s) (map_log st)
  else
    let norm_heading := heading_text in
    if bool_decide (norm_heading ∈ headings_seen st)
       && bool_decide (norm_heading ∉ duplicate_headings st) then
      MapState (source_sections_map st) ({[norm_heading]} ∪ duplicate_headings st)
               (headings_seen st) (preamble_section st)
               (map_log st ++ [WarnDuplicate heading_text])
    else if bool_decide (norm_heading ∉ headings_seen st) then
      MapState (<[norm_heading := s]> (source_sections_map st)) (duplicate_headings st)
               ({[norm_heading]} ∪ headings_seen st) (preamble_section st) (map_log st)
    else st.

Definition section_map (source_sections_data : list section) : map_state :=
  fold_left map_step source_sections_data map_init.

(** Lines 210-214. *)
Definition missing_in_source (found_source_headings : gset string)
    (target_toc_headings : list string) : list string :=
  filter (λ heading, heading ∉ found_source_headings) target_toc_headings.

(** [[source_sections_map[h] for h in hs]]; [None] stands for [KeyError]. *)
Definition lookup_all (m : gmap string section) (hs : list string)
  : option (list section) :=
  mapM (λ h, m !! h) hs.

(** Lines 226-240: the sections to append and the message. *)
Definition unmatched_sections (E : env) (a : args) (m : gmap string section)
    (unmatched_in_source_headings : gset string)
  : option (list section * list event) :=
  if bool_decide (unmatched_in_source_headings = ∅) then Some ([], [])
  else
    ss ← lookup_all m (set_iter E unmatched_in_source_headings);
    let unmatched_original_text := sec_text <$> ss in
    match unmatched a with
    | UDelete => Some ([], [InfoUnmatched UDelete unmatched_original_text])
    | pol =>
        to_append ← lookup_all m (set_iter E unmatched_in_source_headings);
        Some (to_append, [InfoUnmatched pol unmatched_original_text])
    end.

(** One iteration of the loop of lines 247-255. *)
Definition plan_step (a : args) (m : gmap string section)
    (st : list section * gset string * list event) (heading : string)
  : list section * gset string * list event :=
  let '(sections_to_write, processed_target_headings, log) := st in
  match m !! heading with
  | Some s =>
      if bool_decide (heading ∉ processed_target_headings) then
        (sections_to_write ++ [s], {[heading]} ∪ processed_target_headings,
         log ++ (if verbose a then [MsgScheduling (sec_text s)] else []))
      else st
  | None =>
      if verbose a then (sections_to_write, processed_target_headings,
                         log ++ [MsgSkipping heading])
      else st
  end.

(** Lines 226-263: the order of writing, from the preamble, the target list
    and the unmatched headings. *)
Definition schedule (E : env) (a : args) (target_toc_headings : list string)
    (ms : map_state) (unmatched_in_source_headings : gset string)
    (log : list event) : outcome (list section) * list event :=
  let m := source_sections_map ms in
  match unmatched_sections E a m unmatched_in_source_headings with
  | None => (Raised, log)
  | Some (unmatched_sections_to_append, ulog) =>
      let log := log ++ ulog in
      let '(sections_to_write, log) :=
        match preamble_section ms with
        | Some p => if truthy_list (sec_elements p) then ([p], log ++ [MsgPreamble])
                    else ([], log)
        | None => ([], log)
        end in
      let '(sections_to_write, _, log) :=
        fold_left (plan_step a m) target_toc_headings (sections_to_write, ∅, log) in
      let '(sections_to_write, log) :=
        match unmatched_sections_to_append with
        | [] => (sections_to_write, log)
        | _ => (sections_to_write ++ unmatched_sections_to_append,
                log ++ [MsgAppending (length unmatched_sections_to_append)])
        end in
      let log := log ++ (match sections_to_write with [] => [WarnNoSections] | _ => [] end) in
      (Done sections_to_write, log)
  end.

(** Lines 205-263: from the target list and the section map to
    [sections_to_write]. *)
Definition reconcile (E : env) (a : args) (target_toc_headings : list string)
    (ms : map_state) : outcome (list section) * list event :=
  let m := source_sections_map ms in
  let found_source_headings : gset string := dom m in
  let target_toc_set : gset string := list_to_set target_toc_headings in
  let missing_in_source := missing_in_source found_source_headings target_toc_headings in
  let unmatched_in_source_headings := found_source_headings ∖ target_toc_set in
  let log := map_log ms in
  match missing_in_source, missing a with
  | _ :: _, MError => (ReturnedFalse, log ++ [ErrMissing missing_in_source])
  | _ :: _, MWarn =>
      schedule E a target_toc_headings ms unmatched_in_source_headings
               (log ++ [WarnMissing missing_in_source])
  | _, _ => schedule E a target_toc_headings ms unmatched_in_source_headings log
  end.

(** Lines 272-291: the copies appended to the new body, and [copy_errors]. *)
Definition emit (E : env) (sections_to_write : list section) : list element * nat :=
  fold_left
    (λ (acc : list element * nat) (s : section),
       match sec_elements s with
       | Some (e :: es) =>
           fold_left (λ (acc : list element * nat) (x : element),
                        if copy_fails E x then (acc.1, S acc.2)
                        else (acc.1 ++ [x], acc.2))
                     (e :: es) acc
       | _ => acc
       end)
    sections_to_write ([], O).

(** The headings of the target list as strings.  A heading of another type
    raises [TypeError] in lines 208-219: it is unhashable, or it is missing
    from the source and cannot be joined into the message. *)
Definition heading_strings (target_toc_headings : list pyval) : option (list string) :=
  mapM (λ v, match v with PStr s => Some s | _ => None end) target_toc_headings.

(** What a run of [run_reorganize] leaves behind. *)
Record result := Result {
  returned : outcome bool;
  new_document : option (list element);
  saved : option (list element);
  log : list event
}.

(** [run_reorganize(args)].  [new_document] is the body built in memory
    (the elements appended to the fresh document), [saved] the body on disk. *)
Definition run_reorganize (E : env) (a : args) (toc_file : option pyval)
    (doc : option (list element)) : result :=
  match load_toc_config_for_reorganize toc_file with
  | None => Result (Done false) None None []
  | Some target_toc_headings =>
      match parse_document_structure doc (max_level a) true with
      | None => Result (Done false) None None []
      | Some source_sections_data =>
          let ms := section_map source_sections_data in
          match heading_strings target_toc_headings with
          | None => Result Raised None None (map_log ms)
          | Some target =>
              match reconcile E a target ms with
              | (Done sections_to_write, log) =>
                  let '(body, copy_errors) := emit E sections_to_write in
                  let log := log ++ (if (0 <? copy_errors)%nat
                                     then [WarnCopyErrors copy_errors] else []) in
                  if save_ok E then Result (Done true) (Some body) (Some body) log
                  else Result (Done false) (Some body) None log
              | (ReturnedFalse, log) => Result (Done false) None None log
              | (Raised, log) => Result Raised None None log
              end
          end
      end
  end.

(** ** The command line *)

(** The parsed command line of [main]: the sub-command with its options. *)
Inductive command :=
| Generate (max_level : Z)
| Reorganize (a : args).

(** What [main] asks of the file system before it runs a command: whether
    the input and the outline paths are files, whether the output path is a
    directory, and whether the parent directory of the output can be made. *)
Record files := Files {
  input_is_file : bool;
  toc_is_file : bool;
  output_is_dir : bool;
  mkdir_ok : bool
}.

(** How the process ends: the exit status, and what has been written. *)
Record exit := Exit {
  status : Z;
  outline_written : option pyval;
  document_saved : option (list element)
}.

(** [main()] after [parser.parse_args()].  An exception that escapes, from
    [mkdir] or from the command, ends the process with status 1. *)
Definition main (cmd : command) (fs : files) (E : env) (toc_file : option pyval)
    (doc : option (list element)) (write_ok : bool) : exit :=
  if negb (input_is_file fs) then Exit 1 None None
  else
    match cmd with
    | Reorganize a =>
        if negb (toc_is_file fs) then Exit 1 None None
        else if output_is_dir fs then Exit 1 None None
        else if negb (mkdir_ok fs) then Exit 1 None None
        else
          let r := run_reorganize E a toc_file doc in
          match returned r with
          | Done true => Exit 0 None (saved r)
          | _ => Exit 1 None (saved r)
          end
    | Generate max_level =>
        if output_is_dir fs then Exit 1 None None
        else if negb (mkdir_ok fs) then Exit 1 None None
        else
          let '(success, file) := run_generate doc max_level write_ok in
          match success with
          | Done true => Exit 0 file None
          | _ => Exit 1 file None
          end
    end.

(** * Notions used to state the properties *)

(** ** Heading styles *)

(** The rule for heading styles in the words of the specification: the style
    name, trimmed and folded to lower case, starts with "heading ", and the
    last space-separated token of the style name is an integer in [1..L]. *)
Definition heading_rule (name : string) (L n : Z) : Prop :=
  startswith "heading " (lower (strip name)) = true ∧
  (∃ tok, list_last (split_space name) = Some tok ∧ py_int tok = Some n) ∧
  1 ≤ n ≤ L.

(** ** The section map *)

(** The first section of a list that carries a given text. *)
Definition first_with_text (h : string) (ss : list section) : option section :=
  List.find (λ s, String.eqb (sec_text s) h) ss.

Definition seen_is_dom (st : map_state) : Prop :=
  headings_seen st = dom (source_sections_map st).

(** How many sections of a list carry a given text. *)
Definition occurrences (h : string) (ss : list section) : nat :=
  length (filter (λ s, sec_text s = h) ss).

(** The loop invariant on the duplicate report. *)
Record dup_inv (st : map_state) : Prop := DupInv {
  di_seen : seen_is_dom st;
  di_sub : duplicate_headings st ⊆ headings_seen st;
  di_nodup : NoDup (map_log st);
  di_log : ∀ ev, ev ∈ map_log st ↔ ∃ h, ev = WarnDuplicate h ∧ h ∈ duplicate_headings st
}.

(** ** The emission plan *)

(** Python iterates over a set in an order of its own; all that is known is
    that every member comes exactly once. *)
Definition set_iter_ok (E : env) : Prop :=
  ∀ X : gset string, set_iter E X ≡ₚ elements X.

(** The three parts of [sections_to_write]. *)
Definition preamble_part (ms : map_state) : list section :=
  match preamble_section ms with
  | Some p => if truthy_list (sec_elements p) then [p] else []
  | None => []
  end.

Fixpoint matched_part (m : gmap string section) (processed : gset string)
    (T : list string) : list section :=
  match T with
  | [] => []
  | h :: T' =>
      match m !! h with
      | Some s => if bool_decide (h ∉ processed)
                  then s :: matched_part m ({[h]} ∪ processed) T'
                  else matched_part m processed T'
      | None => matched_part m processed T'
      end
  end.

Definition unmatched_headings (m : gmap string section) (T : list string) : gset string :=
  dom m ∖ list_to_set T.

Definition appended_part (E : env) (a : args) (m : gmap string section)
    (T : list string) : list section :=
  match unmatched a with
  | UDelete => []
  | _ => omap (λ h, m !! h) (set_iter E (unmatched_headings m T))
  end.

Definition aborts (a : args) (m : gmap string section) (T : list string) : bool :=
  match missing_in_source (dom m) T, missing a with
  | _ :: _, MError => true
  | _, _ => false
  end.

(** ** Extraction *)

(** The heading an element stands for, if it is a heading paragraph. *)
Definition classify (L : Z) (e : element) : option (Z * string) :=
  scanned_paragraph e ≫= λ p, is_heading_style p L.

(** The sections of a body, read from the right: the content before the
    first heading, and one section per heading. *)
Fixpoint group (L : Z) (body : list element) : list element * list section :=
  match body with
  | [] => ([], [])
  | e :: rest =>
      let '(c, secs) := group L rest in
      match classify L e with
      | Some (n, t) => ([], Sect (strip t) n (Some (e :: c)) :: secs)
      | None => (e :: c, secs)
      end
  end.

Definition preamble_of (pre : list element) : list section :=
  match pre with
  | [] => []
  | _ => [Sect PREAMBLE 0 (Some pre)]
  end.

(** ** Matched and appended sections *)

(** Every key of the map is the text of its section. *)
Definition keyed_by_text (m : gmap string section) : Prop :=
  ∀ h s, m !! h = Some s → sec_text s = h.

(** The sections that enter the section map, in source order. *)
Fixpoint first_occurrences (seen : gset string) (ss : list section) : list section :=
  match ss with
  | [] => []
  | s :: rest =>
      if String.eqb (sec_text s) PREAMBLE then first_occurrences seen rest
      else if bool_decide (sec_text s ∈ seen) then first_occurrences seen rest
      else s :: first_occurrences ({[sec_text s]} ∪ seen) rest
  end.

(** ** Unmatched sections (C1) *)

Definition heading_section (h : string) (n : nat) : section :=
  Sect h 1 (Some [Element n "{w}p" (Some (Paragraph (Some "Heading 1") h))]).

(** An iteration order that Python may take: later headings first.  No
    copy fails and saving succeeds. *)
Definition later_first (a b : string) : Prop := String.leb b a.

Global Instance later_first_dec a b : Decision (later_first a b).
Proof. unfold later_first. apply _. Defined.

Definition descending (X : gset string) : list string :=
  merge_sort later_first (elements X).

Definition descending_env : env := Env descending (λ _, false) true.

(** The claim as the specification words it: the appended sections are the
    unmatched sections of the map in source document order. *)
Definition appended_in_source_order (E : env) (a : args) (T : list string)
    (ss : list section) : Prop :=
  let ms := section_map ss in
  (reconcile E a T ms).1 =
    Done (preamble_part ms ++ matched_part (source_sections_map ms) ∅ T
          ++ filter (λ s, sec_text s ∉ T) (first_occurrences ∅ ss)).

(** ** Missing headings (C4) *)

Definition missing_doc : list element :=
  [Element 0 "{w}p" (Some (Paragraph (Some "Heading 1") "A"));
   Element 1 "{w}p" (Some (Paragraph (Some "Normal") "text of A"))].

Definition missing_toc : pyval :=
  PDict [("toc", PList [PStr "A"; PDict [("heading", PStr "B")]])].

(** ** Duplicate headings (C5) *)

(** How often a duplicate of the heading [h] is reported. *)
Definition reports (h : string) (lg : list event) : nat :=
  length (filter (λ ev, ev = WarnDuplicate h) lg).

(** The claim as the specification words it: for a repeated heading the map
    keeps the first occurrence and every later occurrence is reported. *)
Definition every_duplicate_reported (ss : list section) : Prop :=
  ∀ h, (2 ≤ occurrences h ss)%nat →
    source_sections_map (section_map ss) !! h = first_with_text h ss ∧
    reports h (map_log (section_map ss)) = (occurrences h ss - 1)%nat.

(** ** Heading identity (C8) *)

(** The section that a target heading is matched with, for a source body. *)
Definition matched_with (L : Z) (body : list element) (h : string) : option section :=
  ss ← parse_document_structure (Some body) L true;
  source_sections_map (section_map ss) !! h.

(** The claim as the specification words it: a target heading is matched
    exactly when it equals the text of a source heading after both have been
    trimmed. *)
Definition matches_after_trimming_both (L : Z) (body : list element) (h : string) : Prop :=
  is_Some (matched_with L body h) ↔
  ∃ e n t, e ∈ body ∧ classify L e = Some (n, t) ∧ strip h = strip t.

(** ** The preamble (C6) and the identity outline (C7) *)

(** No heading of the body has the preamble marker as its trimmed text. *)
Definition marker_free (L : Z) (body : list element) : Prop :=
  ∀ e n t, e ∈ body → classify L e = Some (n, t) → strip t ≠ PREAMBLE.

(** A body with an introduction, then a heading whose text is the preamble
    marker itself, then a heading A. *)
Definition marker_doc : list element :=
  [Element 0 "{w}p" (Some (Paragraph (Some "Normal") "Introduction"));
   Element 1 "{w}p" (Some (Paragraph (Some "Heading 1") "__PREAMBLE__"));
   Element 2 "{w}p" (Some (Paragraph (Some "Heading 1") "A"))].

(** A body with two distinct headings: A, then the preamble marker. *)
Definition marker_last_doc : list element :=
  [Element 0 "{w}p" (Some (Paragraph (Some "Heading 1") "A"));
   Element 1 "{w}p" (Some (Paragraph (Some "Heading 1") "__PREAMBLE__"))].

(** ** The outline as a forest *)

(** An outline node: heading, level, children. *)
Inductive tree := Node (heading : string) (level : Z) (children : list tree).

Definition tree_rect' (P : tree → Type) (Q : list tree → Type)
    (HQ0 : Q []) (HQ1 : ∀ t ts, P t → Q ts → Q (t :: ts))
    (HP : ∀ hd lv ts, Q ts → P (Node hd lv ts)) : ∀ t, P t :=
  fix go (t : tree) : P t :=
    match t with
    | Node hd lv ts =>
        HP hd lv ts ((fix gos (ts : list tree) : Q ts :=
                        match ts with
                        | [] => HQ0
                        | t :: ts' => HQ1 t ts' (go t) (gos ts')
                        end) ts)
    end.

(** The headings of a forest in pre-order. *)
Fixpoint preorder (t : tree) : list string :=
  match t with
  | Node hd _ ts => hd :: flat_map preorder ts
  end.

(** The nesting depth and the number of nodes. *)
Fixpoint depth (t : tree) : nat :=
  match t with
  | Node _ _ ts => S (foldr (λ t n, max (depth t) n) O ts)
  end.

Fixpoint tsize (t : tree) : nat :=
  match t with
  | Node _ _ ts => S (foldr (λ t n, (tsize t + n)%nat) O ts)
  end.

Definition forest_depth (ts : list tree) : nat := foldr (λ t n, max (depth t) n) O ts.
Definition forest_size (ts : list tree) : nat := foldr (λ t n, (tsize t + n)%nat) O ts.

(** The value that a cleaned-up node stands for. *)
Fixpoint pyval_of (t : tree) : pyval :=
  match t with
  | Node hd lv [] => PDict [("heading", PStr hd); ("level", PInt lv)]
  | Node hd lv ts =>
      PDict [("heading", PStr hd); ("level", PInt lv);
             ("children", PList (map pyval_of ts))]
  end.

(** ** The outline in the store *)

(** A node dictionary as the loop leaves it. *)
Definition node_dict (hd : string) (lv : Z) (c : addr) : pydict :=
  [("heading", VStr hd); ("level", VInt lv); ("children", VList c)].

(** [closed h live t a]: the dictionary at [a] and what hangs below it spell
    the tree [t], through child lists that are not in [live], the lists the
    loop may still append to. *)
Inductive closed (h : heap) (live : list addr) : tree → addr → Prop :=
| closed_node hd lv ts a c l :
    dicts h !! a = Some (node_dict hd lv c) →
    c ∉ live →
    lists h !! c = Some l →
    Forall2 (closed h live) ts l →
    closed h live (Node hd lv ts) a.

(** An open node of the outline: its level and heading, the children that
    are complete, and where its dictionary and its child list live. *)
Record frame := Frame {
  f_level : Z;
  f_heading : string;
  f_done : list tree;
  f_node : addr;
  f_children : addr
}.

Definition live_of (root : addr) (frames : list frame) : list addr :=
  root :: (f_children <$> frames).

(** The stack and the store spell the open nodes, innermost first; [tail]
    is what the innermost child list holds after its complete children. *)
Fixpoint spine (h : heap) (root : addr) (live : list addr) (stack : list (Z * addr))
    (frames : list frame) (roots : list tree) (tail : list addr) : Prop :=
  match frames with
  | [] =>
      stack = [] ∧
      ∃ l, lists h !! root = Some (l ++ tail) ∧ Forall2 (closed h live) roots l
  | f :: fs =>
      ∃ L stack',
        stack = (f_level f, L) :: stack' ∧
        dicts h !! f_node f = Some (node_dict (f_heading f) (f_level f) (f_children f)) ∧
        (∃ l, lists h !! f_children f = Some (l ++ tail) ∧
              Forall2 (closed h live) (f_done f) l) ∧
        match fs with
        | [] => (L ∉ live) ∧ lists h !! L = Some [f_node f]
        | p :: _ => L = f_children p
        end ∧
        spine h root live stack' fs roots [f_node f]
  end.

(** The forest that the open nodes and the complete roots amount to, once
    every open node is closed; [pend] are complete trees still to be hung
    under the innermost open node. *)
Fixpoint plug (frames : list frame) (roots : list tree) (pend : list tree) : list tree :=
  match frames with
  | [] => roots ++ pend
  | f :: fs => plug fs roots [Node (f_heading f) (f_level f) (f_done f ++ pend)]
  end.

(** Closing the open nodes whose level is not below [level]. *)
Fixpoint pop_frames (level : Z) (frames : list frame) (roots : list tree)
    (pend : list tree) : list frame * list tree :=
  match frames with
  | [] => ([], roots ++ pend)
  | f :: fs =>
      if level <=? f_level f
      then pop_frames level fs roots [Node (f_heading f) (f_level f) (f_done f ++ pend)]
      else (Frame (f_level f) (f_heading f) (f_done f ++ pend) (f_node f) (f_children f) :: fs,
            roots)
  end.

(** ** One step of the builder *)

Definition new_dict (hd : string) (lv : Z) : pydict :=
  [("heading", VStr hd); ("level", VInt lv)].

(** The outline builder keeps the stack, the store and the open nodes in
    step. *)
Definition Inv (h : heap) (root : addr) (stack : list (Z * addr))
    (frames : list frame) (roots : list tree) : Prop :=
  NoDup (live_of root frames) ∧
  spine h root (live_of root frames) stack frames roots [].

(** What the step changes in the store: the new dictionary with its empty
    child list, and the list [cur] that receives the new node. *)
Record step_frame (h h' : heap) (cur : addr) (hd : string) (lv : Z) : Prop :=
  StepFrame {
    sf_dicts : ∀ a d, dicts h !! a = Some d → dicts h' !! a = Some d;
    sf_lists : ∀ c lc, lists h !! c = Some lc → c ≠ cur → lists h' !! c = Some lc;
    sf_cur : ∀ l, lists h !! cur = Some l →
                  lists h' !! cur = Some (l ++ [length (dicts h)]);
    sf_node : dicts h' !! length (dicts h) = Some (node_dict hd lv (length (lists h)));
    sf_new : lists h' !! length (lists h) = Some []
  }.

(** The current list, the one that receives the next node. *)
Definition current (root : addr) (frames : list frame) : addr :=
  match frames with
  | [] => root
  | p :: _ => f_children p
  end.

(** ** Clean-up and read-out *)

(** The store only loses ['children'] keys of dictionaries whose child list
    is empty. *)
Definition trims (h h' : heap) : Prop :=
  lists h' = lists h ∧
  ∀ a d, dicts h !! a = Some d →
    dicts h' !! a = Some d ∨
    ∃ hd lv c, d = node_dict hd lv c ∧ lists h !! c = Some [] ∧
               dicts h' !! a = Some (new_dict hd lv).

(** A node after the clean-up: a dictionary without ['children'] for a leaf,
    with a non-empty child list otherwise. *)
Inductive cleaned (h : heap) : tree → addr → Prop :=
| cleaned_leaf hd lv a :
    dicts h !! a = Some (new_dict hd lv) →
    cleaned h (Node hd lv []) a
| cleaned_inner hd lv t ts a c l :
    dicts h !! a = Some (node_dict hd lv c) →
    lists h !! c = Some l →
    Forall2 (cleaned h) (t :: ts) l →
    cleaned h (Node hd lv (t :: ts)) a.

(** ** The built outline (C2, C3) *)

(** The claim as the specification words it: a serialized node is a bare
    heading string, or an object with only a ['heading'] field and, when the
    node has children, a ['children'] field. *)
Inductive level_free : pyval → Prop :=
| level_free_str s : level_free (PStr s)
| level_free_leaf hd : level_free (PDict [("heading", hd)])
| level_free_inner hd x xs :
    Forall level_free (x :: xs) →
    level_free (PDict [("heading", hd); ("children", PList (x :: xs))]).

(** The shape of a serialized node as the code builds it: an object with a
    ['heading'] string, a ['level'] integer and, exactly when the node has
    children, a ['children'] list of such nodes. *)
Inductive node_shape : pyval → Prop :=
| node_shape_leaf hd lv :
    node_shape (PDict [("heading", PStr hd); ("level", PInt lv)])
| node_shape_inner hd lv x xs :
    Forall node_shape (x :: xs) →
    node_shape (PDict [("heading", PStr hd); ("level", PInt lv);
                       ("children", PList (x :: xs))]).

(** * Notions used to state the further properties *)

(** ** Extraction *)

(** The elements a section holds, none when the source stores [None]. *)
Definition section_elements (s : section) : list element :=
  default [] (sec_elements s).

(** The headings of a body: level and text of every heading paragraph, in
    document order. *)
Definition headings (L : Z) (body : list element) : list (Z * string) :=
  omap (classify L) body.

(** The section that the scan without element capture makes of a heading. *)
Definition flat_section (h : Z * string) : section := Sect (strip h.2) h.1 None.

(** A section without its elements. *)
Definition forget_elements (s : section) : section :=
  Sect (sec_text s) (sec_level s) None.

(** ** Reorganizing *)

(** The headings of a target list in the order of their first mention. *)
Fixpoint first_mentions (seen : gset string) (T : list string) : list string :=
  match T with
  | [] => []
  | h :: T' =>
      if bool_decide (h ∈ seen) then first_mentions seen T'
      else h :: first_mentions ({[h]} ∪ seen) T'
  end.

(** Two command lines that can differ only in what is printed: in the
    verbosity, in [append] against [warn] for unmatched sections, and in
    [warn] against [ignore] for missing headings. *)
Definition same_but_messages (a a' : args) : Prop :=
  max_level a = max_level a' ∧
  (unmatched a = UDelete ↔ unmatched a' = UDelete) ∧
  (missing a = MError ↔ missing a' = MError).

(** A body with an introduction, a heading A followed by a table, and a
    heading B; and an outline that asks for B before A. *)
Definition sample_doc : list element :=
  [Element 0 "{w}p" (Some (Paragraph (Some "Normal") "Introduction"));
   Element 1 "{w}p" (Some (Paragraph (Some "Heading 1") "A"));
   Element 2 "{w}tbl" None;
   Element 3 "{w}p" (Some (Paragraph (Some "Heading 2") "B"))].

Definition sample_toc : pyval :=
  PDict [("toc", PList [PStr "B"; PDict [("heading", PStr "A")]])].

(** ** The outline as a right fold *)

(** The longest prefix whose members pass a test, and what follows it. *)
Fixpoint span {A} (p : A → bool) (l : list A) : list A * list A :=
  match l with
  | [] => ([], [])
  | x :: rest =>
      if p x then let '(a, b) := span p rest in (x :: a, b) else ([], l)
  end.

(** What follows the prefix is empty or opens with a member that fails. *)
Definition stops {A} (p : A → bool) (l : list A) : Prop :=
  match l with [] => True | x :: _ => p x = false end.

Definition tree_level (t : tree) : Z :=
  match t with Node _ lv _ => lv end.

(** Putting an entry in front of the forest of the entries after it: the
    entry takes as children the trees that follow it for as long as their
    level is greater than its own. *)
Definition attach (s : section) (after : list tree) : list tree :=
  let '(under, beside) := span (λ t, sec_level s <? tree_level t) after in
  Node (sec_text s) (sec_level s) under :: beside.

(** The nesting of a flat list by level, entries of level 0 left out. *)
Definition nest (flat : list section) : list tree :=
  foldr attach [] (filter (λ s, sec_level s ≠ 0) flat).

(** What the open nodes, the complete roots, the complete trees [pend] still
    to be hung under the innermost open node, and the entries still to come
    amount to. *)
Fixpoint finish (frames : list frame) (roots pend : list tree) (flat : list section)
  : list tree :=
  match frames with
  | [] => roots ++ pend ++ foldr attach [] flat
  | f :: fs =>
      let '(sub, others) := span (λ s, f_level f <? sec_level s) flat in
      finish fs roots
        [Node (f_heading f) (f_level f) (f_done f ++ pend ++ foldr attach [] sub)]
        others
  end.

(** Every child lies at a level strictly greater than its parent's. *)
Inductive nested_by_level : tree → Prop :=
| nested_node hd lv ts :
    Forall (λ t, lv < tree_level t) ts →
    Forall nested_by_level ts →
    nested_by_level (Node hd lv ts).

(** ** Numbered heading styles *)




(** ** Reorganizing twice *)


(** ** Outlines written by hand *)

(** [spells v t]: the item [v] of an outline file spells the node [t].  A
    bare string spells a leaf; a mapping spells a node through its
    ['heading'] string and, when ['children'] holds a list, through the
    items of that list.  Other keys, ['level'] among them, and the level of
    the node are free. *)
Inductive spells : pyval → tree → Prop :=
| spells_str hd lv : spells (PStr hd) (Node hd lv [])
| spells_dict kvs hd lv l ts :
    dict_get "heading" kvs = Some (PStr hd) →
    dict_get "children" kvs = Some (PList l) →
    Forall2 spells l ts →
    spells (PDict kvs) (Node hd lv ts)
| spells_leaf kvs hd lv :
    dict_get "heading" kvs = Some (PStr hd) →
    (∀ l, dict_get "children" kvs ≠ Some (PList l)) →
    spells (PDict kvs) (Node hd lv []).

(** * Properties *)

(** ** Heading styles *)

Lemma is_heading_style_spec p L n t :
  is_heading_style p L = Some (n, t) ↔
  t = para_text p ∧ ∃ name, style_name p = Some name ∧ heading_rule name L n.
Proof.
  unfold is_heading_style, heading_rule. split.
  - destruct (style_name p) as [name|] eqn:Hn; [|done].
    destruct name as [|c name]; [done|].
    destruct (startswith _ _) eqn:Hs; [|done].
    destruct (list_last _) as [tok|] eqn:Ht; [|done].
    destruct (py_int tok) as [lv|] eqn:Hi; [|done].
    destruct (_ && _) eqn:Hb; [|done].
    intros [= <- <-]. apply andb_prop in Hb as [H1 H2].
    split; [done|]. exists (String c name). repeat split; eauto; lia.
  - intros (-> & name & -> & Hs & (tok & Ht & Hi) & Hr).
    destruct name as [|c name]; [done|].
    rewrite Hs, Ht, Hi.
    replace ((1 <=? n) && (n <=? L)) with true; [done|].
    symmetry. apply andb_true_intro. split; lia.
Qed.

(** C9. A paragraph is a heading exactly when its style name, trimmed and
    lower-cased, starts with "heading " and the last space-separated token of
    the style name is an integer [n] with [1 <= n <= L]; the scan then starts
    a section of level [n].  With any other style name (no integer in the last
    token, or a level outside [1..L]) the paragraph is ordinary content of the
    current section. *)
Theorem heading_classification (p : paragraph) (L : Z) :
  (is_Some (is_heading_style p L) ↔
     ∃ name n, style_name p = Some name ∧ heading_rule name L n) ∧
  (∀ name n inc st e,
     style_name p = Some name ∧ heading_rule name L n ∧ scanned_paragraph e = Some p →
     scan_element L inc st e =
       ScanState (close_section inc st) (if inc then Some [e] else None)
                 (para_text p, n)) ∧
  (∀ inc st e,
     (¬ ∃ name n, style_name p = Some name ∧ heading_rule name L n) ∧
     scanned_paragraph e = Some p →
     scan_element L inc st e = keep_element inc st e).
Proof.
  split; [|split].
  - split.
    + intros [[n t] H]. apply is_heading_style_spec in H as (_ & name & ? & ?).
      by exists name, n.
    + intros (name & n & Hn & Hr). exists (n, para_text p).
      apply is_heading_style_spec. eauto.
  - intros name n inc st e (Hn & Hr & He).
    unfold scan_element. rewrite He.
    assert (is_heading_style p L = Some (n, para_text p)) as ->; [|done].
    apply is_heading_style_spec. eauto.
  - intros inc st e (Hno & He).
    unfold scan_element. rewrite He.
    destruct (is_heading_style p L) as [[n t]|] eqn:H; [|done].
    exfalso. apply Hno. apply is_heading_style_spec in H as (_ & name & ? & ?).
    by exists name, n.
Qed.

Lemma heading_classification_witness :
  scan_element 6 true (scan_init true)
    (Element 0 "{w}p" (Some (Paragraph (Some "Heading 2") "Intro"))) =
  ScanState [] (Some [Element 0 "{w}p" (Some (Paragraph (Some "Heading 2") "Intro"))])
            ("Intro", 2).
Proof.
  apply (proj1 (proj2 (heading_classification (Paragraph (Some "Heading 2") "Intro") 6))
           "Heading 2").
  split; [reflexivity|]. split; [|reflexivity].
  split; [reflexivity|]. split; [|lia].
  exists "2". split; reflexivity.
Defined.

Example is_heading_style_level :
  is_heading_style (Paragraph (Some "Heading 2") "Intro") 6 = Some (2, "Intro").
Proof. reflexivity. Qed.

Example is_heading_style_out_of_range :
  is_heading_style (Paragraph (Some "Heading 7") "Intro") 6 = None.
Proof. reflexivity. Qed.

Example is_heading_style_trailing_space :
  is_heading_style (Paragraph (Some "Heading 1 ") "Intro") 6 = None.
Proof. reflexivity. Qed.

Example is_heading_style_last_token :
  is_heading_style (Paragraph (Some " HEADING x +0_3") "Intro") 6 = Some (3, "Intro").
Proof. reflexivity. Qed.

Example is_heading_style_other_style :
  is_heading_style (Paragraph (Some "Title 1") "Intro") 6 = None.
Proof. reflexivity. Qed.

(** ** Extraction *)

Lemma classify_level L e n t : classify L e = Some (n, t) → 1 ≤ n.
Proof.
  unfold classify. destruct (scanned_paragraph e) as [p|]; [|done]. simpl.
  intros H. apply is_heading_style_spec in H as (_ & name & _ & _ & _ & ?). lia.
Qed.

Lemma scan_element_classify L inc st e :
  scan_element L inc st e =
    match classify L e with
    | Some (n, t) =>
        ScanState (close_section inc st) (if inc then Some [e] else None) (t, n)
    | None => keep_element inc st e
    end.
Proof.
  unfold scan_element, classify. destruct (scanned_paragraph e) as [p|]; [|done].
  simpl. by destruct (is_heading_style p L) as [[n t]|].
Qed.

Lemma scan_fold_true L body S b t n :
  close_section true
    (fold_left (scan_element L true) body (ScanState S (Some b) (t, n))) =
  let '(c, secs) := group L body in
  close_section true (ScanState S (Some (b ++ c)) (t, n)) ++ secs.
Proof.
  revert S b t n. induction body as [|e rest IH]; intros S b t n.
  - simpl. by rewrite !app_nil_r.
  - simpl. rewrite scan_element_classify.
    destruct (group L rest) as [c secs] eqn:Hg.
    destruct (classify L e) as [[n' t']|] eqn:Hc.
    + simpl. rewrite IH. rewrite app_nil_r.
      apply classify_level in Hc.
      unfold close_section at 1. simpl.
      replace (0 <? n') with true by (symmetry; apply Z.ltb_lt; lia). simpl.
      by rewrite <- app_assoc.
    + unfold keep_element. simpl. rewrite IH. by rewrite <- app_assoc.
Qed.

Lemma group_truthy L body s :
  s ∈ (group L body).2 → truthy_list (sec_elements s) = true ∧ 1 ≤ sec_level s.
Proof.
  induction body as [|e rest IH]; simpl; [by intros ?%elem_of_nil|].
  destruct (group L rest) as [c secs]. simpl in IH.
  destruct (classify L e) as [[n t]|] eqn:Hc; simpl; [|done].
  intros [->|Hs]%elem_of_cons; [|by apply IH].
  simpl. split; [done|]. by apply classify_level in Hc.
Qed.

(** With element capture, extraction gives the preamble section, when there
    is content before the first heading, followed by the heading sections. *)
Lemma parse_true L body :
  parse_document_structure (Some body) L true =
    Some (preamble_of (group L body).1 ++ (group L body).2).
Proof.
  unfold parse_document_structure, scan_init. rewrite scan_fold_true.
  destruct (group L body) as [c secs] eqn:Hg. simpl. f_equal.
  unfold close_section. simpl. destruct c as [|e c]; simpl.
  - destruct secs as [|s secs]; [done|]. simpl.
    assert (truthy_list (sec_elements s) = true) as ->; [|by rewrite andb_false_r].
    apply (group_truthy L body). rewrite Hg. by left.
  - done.
Qed.

Lemma group_heading L body s :
  s ∈ (group L body).2 ↔
  ∃ e n t c, s = Sect (strip t) n (Some (e :: c)) ∧ e ∈ body ∧ classify L e = Some (n, t)
             ∧ ∃ before after, body = before ++ e :: after ∧ c = (group L after).1.
Proof.
  induction body as [|e rest IH]; simpl.
  - split; [by intros ?%elem_of_nil|]. by intros (? & ? & ? & ? & _ & ?%elem_of_nil & _).
  - destruct (group L rest) as [c secs] eqn:Hg. simpl in IH.
    destruct (classify L e) as [[n t]|] eqn:Hc; simpl.
    + rewrite elem_of_cons, IH. split.
      * intros [->|(e' & n' & t' & c' & -> & Hin & Hc' & before & after & -> & ->)].
        -- exists e, n, t, c. repeat split; [by left|done|].
           exists [], rest. by rewrite Hg.
        -- exists e', n', t', (group L after).1. repeat split; [by right|done|].
           by exists (e :: before), after.
      * intros (e' & n' & t' & c' & -> & Hin & Hc' & before & after & Hb & ->).
        destruct before as [|b before]; simpl in Hb.
        -- injection Hb as -> ->. left. rewrite Hg. simpl.
           rewrite Hc in Hc'. by injection Hc' as -> ->.
        -- injection Hb as -> ->. right.
           exists e', n', t', (group L after).1. repeat split; [|done|by eauto].
           apply elem_of_app. right. by left.
    + rewrite IH. split.
      * intros (e' & n' & t' & c' & -> & Hin & Hc' & before & after & -> & ->).
        exists e', n', t', (group L after).1. repeat split; [by right|done|].
        by exists (e :: before), after.
      * intros (e' & n' & t' & c' & -> & Hin & Hc' & before & after & Hb & ->).
        destruct before as [|b before]; simpl in Hb.
        -- injection Hb as -> ->. congruence.
        -- injection Hb as -> ->.
           exists e', n', t', (group L after).1. repeat split; [|done|by eauto].
           apply elem_of_app. right. by left.
Qed.

Lemma group_preamble L body :
  ∃ rest, body = (group L body).1 ++ rest ∧
          Forall (λ e, classify L e = None) (group L body).1 ∧
          match rest with [] => True | e :: _ => is_Some (classify L e) end.
Proof.
  induction body as [|e body (rest & Hb & Hf & Hr)]; simpl.
  - by exists [].
  - destruct (group L body) as [c secs]. simpl in *.
    destruct (classify L e) as [[n t]|] eqn:Hc; simpl.
    + exists (e :: body). rewrite Hc. eauto.
    + exists rest. split; [by rewrite Hb at 1|]. split; [|done]. by constructor.
Qed.

Lemma marker_free_group L body s :
  marker_free L body → s ∈ (group L body).2 → sec_text s ≠ PREAMBLE.
Proof.
  intros Hf (e & n & t & c & -> & Hin & Hc & _)%group_heading. simpl. eauto.
Qed.

(** ** The section map *)

Lemma map_step_seen st s : seen_is_dom st → seen_is_dom (map_step st s).
Proof.
  unfold seen_is_dom, map_step. intros Hd.
  destruct (String.eqb _ _); [done|].
  destruct (_ && _); [done|].
  case_bool_decide; [|done]. simpl. rewrite dom_insert_L. by rewrite Hd.
Qed.

Lemma map_step_lookup st s h :
  seen_is_dom st →
  source_sections_map (map_step st s) !! h =
    match source_sections_map st !! h with
    | Some s' => Some s'
    | None => if String.eqb h PREAMBLE then None
              else if String.eqb (sec_text s) h then Some s else None
    end.
Proof.
  unfold seen_is_dom, map_step. intros Hd.
  destruct (String.eqb_spec (sec_text s) PREAMBLE) as [Hp|Hp].
  { simpl. destruct (_ !! h); [done|].
    destruct (String.eqb_spec h PREAMBLE); [done|].
    destruct (String.eqb_spec (sec_text s) h); congruence. }
  assert (∀ m : gmap string section, sec_text s ∈ dom m →
            m !! h = match m !! h with
                     | Some s' => Some s'
                     | None => if String.eqb h PREAMBLE then None
                               else if String.eqb (sec_text s) h then Some s else None
                     end) as Hin.
  { intros m [x Hx]%elem_of_dom. destruct (m !! h) eqn:Hh; [done|].
    destruct (String.eqb_spec h PREAMBLE); [done|].
    destruct (String.eqb_spec (sec_text s) h); congruence. }
  destruct (decide (sec_text s ∈ headings_seen st)) as [Hs|Hs].
  - assert (source_sections_map (map_step st s) = source_sections_map st) as Hm.
    { unfold map_step. rewrite (proj2 (String.eqb_neq _ _) Hp).
      destruct (_ && _); [done|]. by rewrite bool_decide_eq_false_2 by (intros Hn; by apply Hn). }
    unfold map_step in Hm. rewrite (proj2 (String.eqb_neq _ _) Hp) in Hm.
    rewrite Hm. apply Hin. by rewrite <- Hd.
  - rewrite bool_decide_eq_false_2 by done. simpl.
    rewrite bool_decide_eq_true_2 by done.
    simpl. rewrite Hd in Hs. apply not_elem_of_dom in Hs.
    destruct (String.eqb_spec (sec_text s) h) as [Heq|Hne].
    + subst h. rewrite lookup_insert_eq, Hs.
      by rewrite (proj2 (String.eqb_neq _ _) Hp).
    + rewrite lookup_insert_ne by done. destruct (_ !! h); [done|].
      by destruct (String.eqb h PREAMBLE).
Qed.

Lemma map_fold_seen ss st :
  seen_is_dom st → seen_is_dom (fold_left map_step ss st).
Proof.
  revert st. induction ss as [|s ss IH]; intros st Hd; [done|].
  simpl. apply IH. by apply map_step_seen.
Qed.

Lemma map_fold_lookup ss st h :
  seen_is_dom st →
  source_sections_map (fold_left map_step ss st) !! h =
    match source_sections_map st !! h with
    | Some s' => Some s'
    | None => if String.eqb h PREAMBLE then None else first_with_text h ss
    end.
Proof.
  revert st. induction ss as [|s ss IH]; intros st Hd; simpl.
  - destruct (_ !! h); [done|]. by destruct (String.eqb h PREAMBLE).
  - rewrite IH by (by apply map_step_seen).
    rewrite map_step_lookup by done.
    destruct (_ !! h); [done|].
    destruct (String.eqb h PREAMBLE); [done|].
    by destruct (String.eqb (sec_text s) h).
Qed.

(** The section map holds, for every text other than the preamble marker,
    the first section with that text. *)
Lemma section_map_lookup ss h :
  source_sections_map (section_map ss) !! h =
    if String.eqb h PREAMBLE then None else first_with_text h ss.
Proof.
  unfold section_map. rewrite map_fold_lookup by done.
  simpl. by rewrite lookup_empty.
Qed.

Lemma first_with_text_Some h ss s :
  first_with_text h ss = Some s → sec_text s = h ∧ s ∈ ss.
Proof.
  unfold first_with_text. intros H. apply List.find_some in H as [Hin Heq].
  apply String.eqb_eq in Heq. split; [done|]. by apply list_elem_of_In.
Qed.

Lemma first_with_text_cons h s ss :
  first_with_text h (s :: ss) =
    if String.eqb (sec_text s) h then Some s else first_with_text h ss.
Proof. done. Qed.

Lemma first_with_text_is_Some h ss :
  is_Some (first_with_text h ss) ↔ ∃ s, s ∈ ss ∧ sec_text s = h.
Proof.
  split.
  - intros [s [? ?]%first_with_text_Some]. eauto.
  - intros (s & Hin & Ht). unfold first_with_text.
    destruct (List.find _ ss) eqn:Hf; [done|].
    apply list_elem_of_In in Hin. apply (List.find_none _ _ Hf s) in Hin.
    apply String.eqb_neq in Hin. done.
Qed.


Lemma section_map_key ss h s :
  source_sections_map (section_map ss) !! h = Some s →
  sec_text s = h ∧ s ∈ ss ∧ h ≠ PREAMBLE.
Proof.
  rewrite section_map_lookup.
  destruct (String.eqb_spec h PREAMBLE); [done|].
  intros [? ?]%first_with_text_Some. done.
Qed.

Lemma section_map_keyed ss : keyed_by_text (source_sections_map (section_map ss)).
Proof. intros h s H. by apply section_map_key in H as [? _]. Qed.

Lemma occurrences_cons h s ss :
  occurrences h (s :: ss) =
    if decide (sec_text s = h) then S (occurrences h ss) else occurrences h ss.
Proof.
  unfold occurrences. rewrite filter_cons. by destruct (decide _).
Qed.

Lemma map_step_cases st s :
  let t := sec_text s in
  (t = PREAMBLE ∧
   map_step st s = MapState (source_sections_map st) (duplicate_headings st)
                     (headings_seen st) (Some s) (map_log st)) ∨
  (t ≠ PREAMBLE ∧ t ∈ headings_seen st ∧ (t ∉ duplicate_headings st) ∧
   map_step st s = MapState (source_sections_map st) ({[t]} ∪ duplicate_headings st)
                     (headings_seen st) (preamble_section st)
                     (map_log st ++ [WarnDuplicate t])) ∨
  (t ≠ PREAMBLE ∧ (t ∉ headings_seen st) ∧
   map_step st s = MapState (<[t := s]> (source_sections_map st)) (duplicate_headings st)
                     ({[t]} ∪ headings_seen st) (preamble_section st) (map_log st)) ∨
  (t ≠ PREAMBLE ∧ t ∈ headings_seen st ∧ t ∈ duplicate_headings st ∧ map_step st s = st).
Proof.
  intros t. unfold map_step. fold t.
  destruct (String.eqb_spec t PREAMBLE) as [Hp|Hp]; [by left|right].
  destruct (decide (t ∈ headings_seen st)) as [Hs|Hs].
  - rewrite (bool_decide_eq_true_2 _ Hs). simpl.
    destruct (decide (t ∈ duplicate_headings st)) as [Hd|Hd].
    + right; right. rewrite bool_decide_eq_false_2 by (intros Hn; by apply Hn).
      rewrite bool_decide_eq_false_2 by (intros Hn; by apply Hn). done.
    + left. by rewrite bool_decide_eq_true_2.
  - right; left. rewrite (bool_decide_eq_false_2 _ Hs). simpl.
    by rewrite bool_decide_eq_true_2.
Qed.

(** Case analysis on one iteration of the section-map loop. *)
Ltac map_step_split st s :=
  destruct (map_step_cases st s) as
    [(?Ht & ->)|[(?Ht & ?Hin & ?Hnin & ->)|[(?Ht & ?Hnin & ->)|(?Ht & ?Hin & ?Hd & ->)]]].

Lemma map_step_dup_inv st s : dup_inv st → dup_inv (map_step st s).
Proof.
  intros Hi. pose proof Hi as [Hs Hsub Hnd Hlog].
  destruct (map_step_cases st s) as
    [(Ht & Hst)|[(Ht & Hin & Hnin & Hst)|[(Ht & Hnin & Hst)|(Ht & Hin & Hd & Hst)]]];
    rewrite Hst; [split; simpl; try done| |split; simpl; try done|done].
  - split; simpl; [done|set_solver| |].
    + apply NoDup_app. split; [done|]. split; [|apply NoDup_singleton].
      intros ev Hev%Hlog ->%list_elem_of_singleton.
      destruct Hev as (h & [= <-] & Hh). done.
    + intros ev. rewrite elem_of_app, Hlog, list_elem_of_singleton. split.
      * intros [(h & -> & Hh)| ->]; eexists; split; try done; set_solver.
      * intros (h & -> & [->%elem_of_singleton|Hh]%elem_of_union); [by right|].
        left. eauto.
  - unfold seen_is_dom in *. simpl. rewrite dom_insert_L. by rewrite Hs.
  - set_solver.
Qed.

Lemma map_fold_dup_inv ss st : dup_inv st → dup_inv (fold_left map_step ss st).
Proof.
  revert st. induction ss as [|s ss IH]; intros st Hi; [done|].
  simpl. by apply IH, map_step_dup_inv.
Qed.

Lemma map_fold_dups ss st h :
  dup_inv st →
  h ∈ duplicate_headings (fold_left map_step ss st) ↔
  h ∈ duplicate_headings st ∨
  (h ≠ PREAMBLE ∧ ((h ∈ headings_seen st ∧ (1 ≤ occurrences h ss)%nat)
                   ∨ (2 ≤ occurrences h ss)%nat)).
Proof.
  revert st. induction ss as [|s ss IH]; intros st Hi.
  - simpl. unfold occurrences. simpl. split; [by left|]. intros [?|(_ & [[_ ?]|?])]; [done|lia..].
  - simpl. rewrite IH by (by apply map_step_dup_inv).
    rewrite occurrences_cons. destruct Hi as [Hs Hsub _ _].
    map_step_split st s;
      simpl; destruct (decide (sec_text s = h)) as [Heq|Hne]; try subst h;
      set_unfold; naive_solver lia.
Qed.

Lemma section_map_dup_inv ss : dup_inv (section_map ss).
Proof.
  apply map_fold_dup_inv. split; simpl; [done|done|constructor|].
  intros ev. split; [by intros ?%elem_of_nil|]. intros (h & _ & ?). set_solver.
Qed.

Lemma reports_none h (lg : list event) :
  WarnDuplicate h ∉ lg → reports h lg = 0%nat.
Proof.
  unfold reports. induction lg as [|ev lg IH]; intros Hn; [done|].
  rewrite filter_cons. apply not_elem_of_cons in Hn as [Hne Hn].
  rewrite decide_False by congruence. by apply IH.
Qed.

Lemma reports_once h (lg : list event) :
  NoDup lg → WarnDuplicate h ∈ lg → reports h lg = 1%nat.
Proof.
  induction lg as [|ev lg IH]; intros Hnd Hin.
  - by apply elem_of_nil in Hin.
  - apply NoDup_cons in Hnd as [Hev Hnd]. unfold reports. rewrite filter_cons.
    destruct (decide (ev = WarnDuplicate h)) as [->|Hne].
    + simpl. f_equal. by apply reports_none.
    + apply IH; [done|]. apply elem_of_cons in Hin as [?|?]; [congruence|done].
Qed.

Lemma map_fold_preamble ss st :
  preamble_section (fold_left map_step ss st) =
    match last (filter (λ s, sec_text s = PREAMBLE) ss) with
    | Some p => Some p
    | None => preamble_section st
    end.
Proof.
  revert st. induction ss as [|s ss IH]; intros st; [done|].
  simpl. rewrite IH, filter_cons.
  map_step_split st s; simpl.
  - rewrite decide_True by done. rewrite last_cons.
    by destruct (last (filter _ ss)).
  - by rewrite decide_False by done.
  - by rewrite decide_False by done.
  - by rewrite decide_False by done.
Qed.

(** The section kept as preamble is the last one that carries the marker. *)
Lemma section_map_preamble ss :
  preamble_section (section_map ss) = last (filter (λ s, sec_text s = PREAMBLE) ss).
Proof.
  unfold section_map. rewrite map_fold_preamble. simpl.
  by destruct (last _).
Qed.

Lemma preamble_section_text ss p :
  preamble_section (section_map ss) = Some p → sec_text p = PREAMBLE.
Proof.
  unfold section_map.
  assert (∀ l st, (∀ p, preamble_section st = Some p → sec_text p = PREAMBLE) →
            ∀ p, preamble_section (fold_left map_step l st) = Some p →
                 sec_text p = PREAMBLE) as Hpre.
  { induction l as [|x l IHl]; intros st Hst; [done|]. simpl. apply IHl.
    map_step_split st x; simpl; try done. by intros q [= <-]. }
  by apply (Hpre ss map_init).
Qed.

Lemma preamble_part_text ss s :
  s ∈ preamble_part (section_map ss) → sec_text s = PREAMBLE.
Proof.
  unfold preamble_part.
  destruct (preamble_section _) as [p|] eqn:Hps; [|by intros ?%elem_of_nil].
  destruct (truthy_list _); [|by intros ?%elem_of_nil].
  intros ->%list_elem_of_singleton. by apply (preamble_section_text ss).
Qed.

Lemma preamble_part_length ms : (length (preamble_part ms) ≤ 1)%nat.
Proof.
  unfold preamble_part. destruct (preamble_section ms); [|simpl; lia].
  destruct (truthy_list _); simpl; lia.
Qed.

Lemma filter_none {A} (P : A → Prop) `{∀ x, Decision (P x)} (l : list A) :
  (∀ x, x ∈ l → ¬ P x) → filter P l = [].
Proof.
  induction l as [|x l IH]; intros Hn; [done|].
  rewrite filter_cons_False by (apply Hn; by left).
  apply IH. intros y Hy. apply Hn. by right.
Qed.

Lemma preamble_part_parse L body :
  marker_free L body →
  preamble_part (section_map (preamble_of (group L body).1 ++ (group L body).2)) =
  preamble_of (group L body).1.
Proof.
  intros Hf. unfold preamble_part. rewrite section_map_preamble, filter_app.
  rewrite (filter_none _ (group L body).2), app_nil_r
    by (intros s Hs; by apply (marker_free_group L body)).
  unfold preamble_of. by destruct (group L body).1.
Qed.

Lemma first_occurrences_elem seen ss s :
  s ∈ first_occurrences seen ss ↔
  (sec_text s ∉ seen) ∧ sec_text s ≠ PREAMBLE ∧ first_with_text (sec_text s) ss = Some s.
Proof.
  revert seen. induction ss as [|s0 ss IH]; intros seen.
  - simpl. split; [by intros ?%elem_of_nil|]. by intros (_ & _ & ?).
  - simpl first_occurrences. rewrite first_with_text_cons.
    destruct (String.eqb_spec (sec_text s0) PREAMBLE) as [Hp|Hp].
    { rewrite IH. destruct (String.eqb_spec (sec_text s0) (sec_text s)); [|done].
      split; intros (? & ? & ?); congruence. }
    case_bool_decide as Hs.
    { rewrite IH. destruct (String.eqb_spec (sec_text s0) (sec_text s)) as [Heq|]; [|done].
      split; intros (? & ? & ?); [|congruence]. rewrite <- Heq in *. done. }
    rewrite elem_of_cons, IH.
    destruct (String.eqb_spec (sec_text s0) (sec_text s)) as [Heq|Hne].
    + split.
      * intros [->|(Hn & _)]; [done|]. set_solver.
      * intros (_ & _ & [= ->]). by left.
    + split.
      * intros [->|(Hn & ? & ?)]; [done|]. split; [set_solver|done].
      * intros (? & ? & ?). right. split; [set_solver|done].
Qed.

Lemma first_occurrences_NoDup seen ss :
  NoDup (sec_text <$> first_occurrences seen ss).
Proof.
  revert seen. induction ss as [|s ss IH]; intros seen; simpl; [constructor|].
  destruct (String.eqb _ _); [apply IH|]. case_bool_decide; [apply IH|].
  simpl. constructor; [|apply IH].
  intros (s' & Ht & (Hn & _)%first_occurrences_elem)%list_elem_of_fmap. set_solver.
Qed.

Lemma first_occurrences_map ss s :
  s ∈ first_occurrences ∅ ss ↔
  source_sections_map (section_map ss) !! sec_text s = Some s.
Proof.
  rewrite first_occurrences_elem, section_map_lookup.
  destruct (String.eqb_spec (sec_text s) PREAMBLE) as [Hp|Hp].
  - split; [by intros (_ & ? & _)|done].
  - split; [by intros (_ & _ & ?)|]. intros ?. split; [set_solver|done].
Qed.

Lemma NoDup_fmap_text (l : list section) : NoDup (sec_text <$> l) → NoDup l.
Proof. apply NoDup_fmap_1. Qed.

(** ** Matching against the target list *)

Lemma plan_fold a m T acc processed lg :
  (fold_left (plan_step a m) T (acc, processed, lg)).1.1 =
  acc ++ matched_part m processed T.
Proof.
  revert acc processed lg. induction T as [|h T IH]; intros acc processed lg; simpl.
  - by rewrite app_nil_r.
  - destruct (m !! h) as [s|] eqn:Hm.
    + case_bool_decide.
      * rewrite IH. by rewrite <- app_assoc.
      * apply IH.
    + destruct (verbose a); apply IH.
Qed.

Lemma matched_part_elem m P T s :
  s ∈ matched_part m P T ↔ ∃ h, h ∈ T ∧ (h ∉ P) ∧ m !! h = Some s.
Proof.
  revert P. induction T as [|h T IH]; intros P; simpl.
  - split; [by intros ?%elem_of_nil|]. by intros (? & ?%elem_of_nil & _).
  - destruct (m !! h) as [s'|] eqn:Hm.
    + case_bool_decide as Hp.
      * rewrite elem_of_cons, IH. split.
        -- intros [->|(h' & ? & ? & ?)].
           ++ exists h. split; [by left|done].
           ++ exists h'. split; [by right|]. split; [set_solver|done].
        -- intros (h' & [->|Hin]%elem_of_cons & Hn & Hs).
           ++ left. congruence.
           ++ destruct (decide (h' = h)) as [->|Hne]; [left; congruence|].
              right. exists h'. split; [done|]. split; [set_solver|done].
      * rewrite IH. split.
        -- intros (h' & ? & ? & ?). exists h'. split; [by right|done].
        -- intros (h' & [->|Hin]%elem_of_cons & Hn & Hs); [done|]. eauto.
    + rewrite IH. split.
      * intros (h' & ? & ? & ?). exists h'. split; [by right|done].
      * intros (h' & [->|Hin]%elem_of_cons & Hn & Hs); [congruence|]. eauto.
Qed.

Lemma matched_part_NoDup m P T :
  keyed_by_text m → NoDup (sec_text <$> matched_part m P T).
Proof.
  intros Hk. revert P. induction T as [|h T IH]; intros P; simpl; [constructor|].
  destruct (m !! h) as [s|] eqn:Hm; [|apply IH].
  case_bool_decide; [|apply IH]. simpl. constructor; [|apply IH].
  intros (s' & Ht & (h' & _ & Hn & Hs')%matched_part_elem)%list_elem_of_fmap.
  apply Hk in Hm, Hs'. set_solver.
Qed.

(** Dropping a heading that the source lacks leaves the matched part as it is. *)
Lemma matched_part_missing m P T1 h T2 :
  m !! h = None → matched_part m P (T1 ++ h :: T2) = matched_part m P (T1 ++ T2).
Proof.
  intros Hm. revert P. induction T1 as [|h1 T1 IH]; intros P; simpl.
  - by rewrite Hm.
  - destruct (m !! h1); [|apply IH]. case_bool_decide; [|apply IH]. by rewrite IH.
Qed.


Lemma matched_part_filter m P T :
  matched_part m P T = matched_part m P (filter (λ h, h ∈ dom m) T).
Proof.
  revert P. induction T as [|h T IH]; intros P; [done|].
  rewrite filter_cons. simpl. destruct (m !! h) as [s|] eqn:Hm.
  - rewrite decide_True by (apply elem_of_dom; eauto). simpl. rewrite Hm.
    case_bool_decide; by rewrite IH.
  - rewrite decide_False by (by apply not_elem_of_dom). apply IH.
Qed.

Lemma plan_step_mono a m st h : st.1.2 ⊆ (plan_step a m st h).1.2.
Proof.
  destruct st as [[w pr] lg]. simpl. destruct (m !! h).
  - case_bool_decide; simpl; set_solver.
  - by destruct (verbose a).
Qed.

Lemma plan_fold_mono a m T st : st.1.2 ⊆ (fold_left (plan_step a m) T st).1.2.
Proof.
  revert st. induction T as [|h T IH]; intros st; [done|].
  simpl. etrans; [apply (plan_step_mono a m st h)|apply IH].
Qed.

Lemma plan_fold_processed a m T st h :
  h ∈ T → is_Some (m !! h) → h ∈ (fold_left (plan_step a m) T st).1.2.
Proof.
  intros Hin [s Hs]. revert st. induction T as [|h' T IH]; intros st.
  - by apply elem_of_nil in Hin.
  - simpl. apply elem_of_cons in Hin as [<-|Hin]; [|by apply IH].
    apply plan_fold_mono. destruct st as [[w pr] lg]. simpl. rewrite Hs.
    case_bool_decide as Hp; simpl; [set_solver|done].
Qed.

(** A second occurrence of a matched heading in the target list passes
    without any trace: no section, no message. *)
Lemma plan_step_repeat a m w pr lg h :
  is_Some (m !! h) → h ∈ pr → plan_step a m (w, pr, lg) h = (w, pr, lg).
Proof.
  intros [s Hs] Hp. simpl. rewrite Hs.
  by rewrite bool_decide_eq_false_2 by (intros Hn; by apply Hn).
Qed.

Lemma plan_fold_repeat a m T1 h T2 st :
  h ∈ T1 → is_Some (m !! h) →
  fold_left (plan_step a m) (T1 ++ h :: T2) st =
  fold_left (plan_step a m) (T1 ++ T2) st.
Proof.
  intros Hin Hm. rewrite !fold_left_app. simpl.
  pose proof (plan_fold_processed a m T1 st h Hin Hm) as Hp.
  destruct (fold_left _ T1 st) as [[w pr] lg]. simpl in Hp.
  by rewrite plan_step_repeat.
Qed.

Lemma lookup_all_dom (m : gmap string section) hs :
  (∀ h, h ∈ hs → h ∈ dom m) →
  lookup_all m hs = Some (omap (λ h, m !! h) hs).
Proof.
  unfold lookup_all. induction hs as [|h hs IH]; intros Hd; [done|].
  assert (h ∈ dom m) as [s Hs]%elem_of_dom by (apply Hd; left).
  simpl. rewrite Hs. simpl. rewrite IH; [done|].
  intros h' Hh'. apply Hd. by right.
Qed.

Lemma omap_lookup_text (m : gmap string section) (l : list string) :
  keyed_by_text m → (∀ h, h ∈ l → h ∈ dom m) →
  sec_text <$> omap (λ h, m !! h) l = l.
Proof.
  intros Hk. induction l as [|h l IH]; intros Hd; [done|].
  assert (h ∈ dom m) as [s Hs]%elem_of_dom by (apply Hd; by left).
  simpl. rewrite Hs. simpl. f_equal; [by apply Hk|].
  apply IH. intros; apply Hd; by right.
Qed.

Lemma aborts_error a m T h :
  h ∈ T → h ∉ dom m → aborts a m T = bool_decide (missing a = MError).
Proof.
  intros Hin Hn. unfold aborts.
  assert (h ∈ missing_in_source (dom m) T) as Hm.
  { unfold missing_in_source. by apply list_elem_of_filter. }
  destruct (missing_in_source (dom m) T); [by apply elem_of_nil in Hm|].
  by destruct (missing a).
Qed.

(** ** The emission plan *)

Section Plan.

(** The run's surroundings, with a set iteration that is a permutation of the
    set. *)
Context (E : env) (HE : set_iter_ok E).

Lemma set_iter_sub X h : h ∈ set_iter E X → h ∈ X.
Proof. intros Hh. rewrite (HE X) in Hh. by apply elem_of_elements in Hh. Qed.

Lemma set_iter_empty : set_iter E ∅ = [].
Proof.
  apply Permutation_nil_r. rewrite (HE ∅). by rewrite elements_empty.
Qed.

Lemma schedule_plan a T ms lg :
  (schedule E a T ms (unmatched_headings (source_sections_map ms) T) lg).1 =
    Done (preamble_part ms ++ matched_part (source_sections_map ms) ∅ T
          ++ appended_part E a (source_sections_map ms) T).
Proof.
  unfold schedule.
  set (m := source_sections_map ms).
  assert (∃ app ulog,
    unmatched_sections E a m (unmatched_headings m T) = Some (app, ulog) ∧
    app = appended_part E a m T) as (app & ulog & -> & Happ).
  { unfold unmatched_sections, appended_part.
    case_bool_decide as He.
    - rewrite He, set_iter_empty. exists [], []. split; [done|].
      by destruct (unmatched a).
    - rewrite lookup_all_dom.
      2:{ intros h Hh%(set_iter_sub _ _). unfold unmatched_headings in Hh.
          set_solver. }
      simpl. destruct (unmatched a); eauto. }
  rewrite <- Happ.
  assert (∃ pre lg1, match preamble_section ms with
       | Some p =>
           if truthy_list (sec_elements p)
           then ([p], (lg ++ ulog) ++ [MsgPreamble])
           else ([], lg ++ ulog)
       | None => ([], lg ++ ulog)
       end = (pre, lg1) ∧ pre = preamble_part ms) as (pre & lg1 & -> & Hpre).
  { unfold preamble_part. destruct (preamble_section ms) as [p|]; [|eauto].
    destruct (truthy_list _); eauto. }
  pose proof (plan_fold a m T pre ∅ lg1) as Hf.
  destruct (fold_left _ _ _) as [[w pr] lg2]. simpl in Hf. subst w pre.
  destruct app; simpl; [by rewrite !app_nil_r|]. by rewrite app_assoc.
Qed.

(** [reconcile] either stops on the missing-policy [error], or schedules the
    preamble, the matched sections and the appended sections, in this order. *)
Lemma reconcile_plan a T ms :
  (reconcile E a T ms).1 =
    if aborts a (source_sections_map ms) T then ReturnedFalse
    else Done (preamble_part ms ++ matched_part (source_sections_map ms) ∅ T
               ++ appended_part E a (source_sections_map ms) T).
Proof.
  unfold reconcile, aborts.
  fold (unmatched_headings (source_sections_map ms) T).
  destruct (missing_in_source _ _); [by apply schedule_plan|].
  destruct (missing a); [done|by apply schedule_plan..].
Qed.

Lemma reconcile_plan_parts a T ms plan :
  (reconcile E a T ms).1 = Done plan →
  plan = preamble_part ms ++ matched_part (source_sections_map ms) ∅ T
         ++ appended_part E a (source_sections_map ms) T.
Proof.
  intros Hr. rewrite reconcile_plan in Hr.
  destruct (aborts _ _ _); [done|]. by injection Hr as <-.
Qed.

Lemma schedule_repeat a ms T1 h T2 U lg :
  h ∈ T1 → is_Some (source_sections_map ms !! h) →
  schedule E a (T1 ++ h :: T2) ms U lg = schedule E a (T1 ++ T2) ms U lg.
Proof.
  intros Hin Hm. unfold schedule.
  destruct (unmatched_sections _ _ _ _) as [[app ulog]|]; [|done].
  destruct (match preamble_section ms with Some _ => _ | None => _ end) as [w lg1].
  by rewrite plan_fold_repeat.
Qed.

Lemma reconcile_repeat a ms T1 h T2 :
  h ∈ T1 → is_Some (source_sections_map ms !! h) →
  reconcile E a (T1 ++ h :: T2) ms = reconcile E a (T1 ++ T2) ms.
Proof.
  intros Hin Hm. unfold reconcile.
  assert (list_to_set (T1 ++ h :: T2) =@{gset string} list_to_set (T1 ++ T2)) as ->.
  { apply set_eq. intros x. rewrite !elem_of_list_to_set, !elem_of_app, elem_of_cons.
    split; [intros [?|[->|?]]; auto|intros [?|?]; auto]. }
  assert (missing_in_source (dom (source_sections_map ms)) (T1 ++ h :: T2) =
          missing_in_source (dom (source_sections_map ms)) (T1 ++ T2)) as ->.
  { unfold missing_in_source. rewrite !filter_app, filter_cons.
    rewrite decide_False; [done|]. intros Hn. apply Hn. by apply elem_of_dom. }
  by rewrite !schedule_repeat.
Qed.

(** Unless the policy is [delete], the appended sections are the sections of
    the map whose heading the target list lacks, each once, in the order in
    which the set of these headings is iterated. *)
Lemma appended_part_perm a ss T :
  unmatched a ≠ UDelete →
  appended_part E a (source_sections_map (section_map ss)) T ≡ₚ
  filter (λ s, sec_text s ∉ T) (first_occurrences ∅ ss).
Proof.
  intros Hu. set (m := source_sections_map (section_map ss)).
  assert (appended_part E a m T =
          omap (λ h, m !! h) (set_iter E (unmatched_headings m T))) as ->.
  { unfold appended_part. by destruct (unmatched a). }
  assert (∀ s, s ∈ omap (λ h, m !! h) (set_iter E (unmatched_headings m T)) ↔
               m !! sec_text s = Some s ∧ sec_text s ∉ T) as Hel.
  { intros s. rewrite list_elem_of_omap. split.
    - intros (h & Hh & Hs). rewrite (HE _) in Hh. apply elem_of_elements in Hh.
      pose proof (section_map_keyed ss h s Hs) as ->.
      unfold unmatched_headings in Hh. set_solver.
    - intros [Hs Hn]. exists (sec_text s). split; [|done].
      rewrite (HE _). apply elem_of_elements. unfold unmatched_headings.
      apply elem_of_difference. split; [by apply elem_of_dom|set_solver]. }
  apply NoDup_Permutation.
  - apply NoDup_fmap_text.
    assert (sec_text <$> omap (λ h, m !! h) (set_iter E (unmatched_headings m T))
            = set_iter E (unmatched_headings m T)) as ->.
    { apply omap_lookup_text; [apply section_map_keyed|].
      intros h Hh%(set_iter_sub _ _). unfold unmatched_headings in Hh. set_solver. }
    rewrite (HE _). apply NoDup_elements.
  - apply NoDup_filter, NoDup_fmap_text, first_occurrences_NoDup.
  - intros s. rewrite Hel, list_elem_of_filter, first_occurrences_map. tauto.
Qed.

Lemma appended_part_elem a m T s :
  s ∈ appended_part E a m T →
  unmatched a ≠ UDelete ∧ ∃ h, h ∈ dom m ∧ (h ∉ T) ∧ m !! h = Some s.
Proof.
  unfold appended_part.
  assert (s ∈ omap (λ h, m !! h) (set_iter E (unmatched_headings m T)) →
          ∃ h, h ∈ dom m ∧ (h ∉ T) ∧ m !! h = Some s) as Hel.
  { intros (h & Hh%(set_iter_sub _ _) & Hs)%list_elem_of_omap.
    exists h. unfold unmatched_headings in Hh. set_solver. }
  destruct (unmatched a); [|by intros ?%elem_of_nil|]; intros ?; split; auto; done.
Qed.

Lemma appended_part_NoDup a ss T :
  NoDup (sec_text <$> appended_part E a (source_sections_map (section_map ss)) T).
Proof.
  unfold appended_part.
  assert (NoDup (sec_text <$> omap (λ h, source_sections_map (section_map ss) !! h)
                   (set_iter E (unmatched_headings (source_sections_map (section_map ss)) T))))
    as Hnd.
  { rewrite omap_lookup_text; [|apply section_map_keyed|].
    - rewrite (HE _). apply NoDup_elements.
    - intros h Hh%(set_iter_sub _ _). unfold unmatched_headings in Hh. set_solver. }
  destruct (unmatched a); [done|constructor|done].
Qed.

(** C1, amended. When the run is not stopped by the missing policy: under
    [append] and [warn] the sections of the section map whose heading the
    target list lacks are appended after the matched sections, each exactly
    once, in the order in which Python iterates over the set of their
    headings (a permutation of their source order); under [delete] none of
    them is scheduled. *)
Theorem unmatched_policy_plan (a : args) (T : list string)
    (ss : list section) :
  aborts a (source_sections_map (section_map ss)) T = false →
  let ms := section_map ss in
  let m := source_sections_map ms in
  ∃ app,
    (reconcile E a T ms).1 = Done (preamble_part ms ++ matched_part m ∅ T ++ app) ∧
    (∀ s, s ∈ matched_part m ∅ T → sec_text s ∈ T) ∧
    (unmatched a ≠ UDelete →
       app = omap (λ h, m !! h) (set_iter E (unmatched_headings m T)) ∧
       app ≡ₚ filter (λ s, sec_text s ∉ T) (first_occurrences ∅ ss)) ∧
    (unmatched a = UDelete →
       app = [] ∧
       ∀ s, s ∈ preamble_part ms ++ matched_part m ∅ T ++ app →
            sec_text s ∉ unmatched_headings m T).
Proof.
  intros Hab ms m. exists (appended_part E a m T).
  split; [|split; [|split]].
  - subst m ms. rewrite reconcile_plan. by rewrite Hab.
  - intros s (h & Hin & _ & Hs)%matched_part_elem.
    by rewrite (section_map_keyed ss h s Hs).
  - intros Hu. split; [|by apply appended_part_perm].
    unfold appended_part. by destruct (unmatched a).
  - intros Hu. unfold appended_part. rewrite Hu. split; [done|].
    intros s. rewrite app_nil_r, elem_of_app.
    unfold unmatched_headings. intros [Hp|(h & Hin & _ & Hs)%matched_part_elem].
    + unfold preamble_part in Hp.
      assert (sec_text s = PREAMBLE) as Ht by (by apply (preamble_part_text ss)).
      rewrite Ht. intros [[x Hx]%elem_of_dom _]%elem_of_difference.
      by apply section_map_key in Hx as (_ & _ & ?).
    + rewrite (section_map_keyed ss h s Hs). set_solver.
Qed.

(** C10. Whenever a plan is made, it is the preamble part, the matched part
    and the appended part in this order; no two scheduled sections share a
    text, so none is scheduled twice; a section with the preamble marker can
    only come first and only once; no matched section is among the appended
    ones; and a repeated occurrence of a matched heading in the target list
    changes neither the plan nor the messages. *)
Theorem no_section_twice (a : args) (T : list string) (ss : list section)
    (plan : list section) :
  (reconcile E a T (section_map ss)).1 = Done plan →
  let ms := section_map ss in
  let m := source_sections_map ms in
  plan = preamble_part ms ++ matched_part m ∅ T ++ appended_part E a m T ∧
  NoDup (sec_text <$> plan) ∧ NoDup plan ∧
  (length (preamble_part ms) ≤ 1)%nat ∧
  (∀ s, s ∈ preamble_part ms → sec_text s = PREAMBLE) ∧
  (∀ s, s ∈ matched_part m ∅ T ++ appended_part E a m T → sec_text s ≠ PREAMBLE) ∧
  (∀ s, s ∈ matched_part m ∅ T → s ∉ appended_part E a m T) ∧
  (∀ T1 h T2, T = T1 ++ h :: T2 → h ∈ T1 → is_Some (m !! h) →
     reconcile E a T ms = reconcile E a (T1 ++ T2) ms).
Proof.
  intros Hr ms m.
  assert (plan = preamble_part ms ++ matched_part m ∅ T ++ appended_part E a m T) as Hplan
    by (by apply reconcile_plan_parts).
  assert (∀ s, s ∈ matched_part m ∅ T → sec_text s ∈ T ∧ sec_text s ∈ dom m) as Hmt.
  { intros s (h & Hin & _ & Hs)%matched_part_elem.
    rewrite (section_map_keyed ss h s Hs). split; [done|]. apply elem_of_dom. eauto. }
  assert (∀ s, s ∈ appended_part E a m T → (sec_text s ∉ T) ∧ sec_text s ∈ dom m) as Hat.
  { intros s (_ & h & Hd & Hn & Hs)%appended_part_elem.
    by rewrite (section_map_keyed ss h s Hs). }
  assert (∀ h, h ∈ dom m → h ≠ PREAMBLE) as Hdom.
  { intros h [x Hx]%elem_of_dom. by apply section_map_key in Hx as (_ & _ & ?). }
  assert (NoDup (sec_text <$> plan)) as Hnd.
  { rewrite Hplan, !fmap_app. apply NoDup_app. split; [|split].
    - pose proof (preamble_part_length ms) as Hl.
      destruct (preamble_part ms) as [|p [|q l]]; simpl in *;
        [constructor|apply NoDup_singleton|lia].
    - intros t (p & -> & Hp%preamble_part_text)%list_elem_of_fmap.
      rewrite Hp. intros [(s & Ht & Hs)%list_elem_of_fmap|(s & Ht & Hs)%list_elem_of_fmap]%elem_of_app.
      + apply Hmt in Hs as [_ Hs]. apply Hdom in Hs. congruence.
      + apply Hat in Hs as [_ Hs]. apply Hdom in Hs. congruence.
    - apply NoDup_app. split; [|split].
      + apply matched_part_NoDup, section_map_keyed.
      + intros t (s & -> & Hs)%list_elem_of_fmap (s' & Ht & Hs')%list_elem_of_fmap.
        apply Hmt in Hs as [Hs _]. apply Hat in Hs' as [Hs' _]. congruence.
      + by apply appended_part_NoDup. }
  split; [done|]. split; [done|]. split; [by apply NoDup_fmap_text|].
  split; [apply preamble_part_length|]. split; [apply preamble_part_text|].
  split; [|split].
  - intros s [Hs|Hs]%elem_of_app; apply Hdom; [by apply Hmt|by apply Hat].
  - intros s Hs Hs'. apply Hmt in Hs as [Hs _]. by apply Hat in Hs' as [Hs' _].
  - intros T1 h T2 -> Hin Hm. by apply reconcile_repeat.
Qed.

(** C4. Let the target list hold a heading that the section map lacks.
    Under [error] the run returns failure and no document is created or
    saved.  Under [warn] and [ignore] the run goes on: the plan is the one
    for the target list without its missing headings, every matched or
    appended section carries a heading of the source, the new document is
    built from the plan, and the run succeeds when saving does. *)
Theorem missing_heading_policy (a : args) (toc : option pyval)
    (doc : option (list element)) (Tv : list pyval) (T : list string)
    (ss : list section) (h : string) :
  load_toc_config_for_reorganize toc = Some Tv →
  heading_strings Tv = Some T →
  parse_document_structure doc (max_level a) true = Some ss →
  h ∈ T →
  h ∉ dom (source_sections_map (section_map ss)) →
  let ms := section_map ss in
  let m := source_sections_map ms in
  let r := run_reorganize E a toc doc in
  (missing a = MError →
     returned r = Done false ∧ new_document r = None ∧ saved r = None) ∧
  (missing a ≠ MError →
     ∃ plan,
       (reconcile E a T ms).1 = Done plan ∧
       plan = preamble_part ms ++ matched_part m ∅ (filter (λ h, h ∈ dom m) T)
              ++ appended_part E a m T ∧
       (∀ s, s ∈ matched_part m ∅ T ++ appended_part E a m T →
             sec_text s ∈ dom m ∧ sec_text s ≠ h) ∧
       new_document r = Some (emit E plan).1 ∧
       returned r = Done (save_ok E) ∧
       saved r = if save_ok E then Some (emit E plan).1 else None).
Proof.
  intros Hload Hstr Hparse Hin Hn ms m r.
  pose proof (reconcile_plan a T (section_map ss)) as Hrec.
  rewrite (aborts_error a _ T h Hin Hn) in Hrec. fold ms m in Hrec.
  unfold r, run_reorganize. rewrite Hload, Hparse, Hstr. fold ms.
  destruct (reconcile E a T ms) as [o lg]. simpl in Hrec. subst o.
  split.
  - intros He. by rewrite bool_decide_eq_true_2.
  - intros He. rewrite bool_decide_eq_false_2 by done.
    eexists. split; [done|]. split; [by rewrite <- matched_part_filter|].
    split.
    + intros s Hs.
      assert (sec_text s ∈ dom m) as Hd.
      { apply elem_of_app in Hs as [(h' & _ & _ & Hs)%matched_part_elem|Hs].
        - rewrite (section_map_keyed ss h' s Hs). apply elem_of_dom. eauto.
        - apply appended_part_elem in Hs as (_ & h' & Hd & _ & Hs).
          by rewrite (section_map_keyed ss h' s Hs). }
      split; [done|]. intros Heq. by rewrite Heq in Hd.
    + destruct (emit E _) as [body errs]. by destruct (save_ok E).
Qed.

(** C5, amended. For a heading other than the preamble marker that several
    sections carry: the section map holds its first occurrence, the duplicate
    is reported exactly once, and whatever section with this heading is
    scheduled is that first occurrence, so that no later occurrence is ever
    written. *)
Theorem duplicate_heading_first_wins (a : args) (T : list string)
    (ss : list section) (h : string) :
  h ≠ PREAMBLE →
  (2 ≤ occurrences h ss)%nat →
  let ms := section_map ss in
  source_sections_map ms !! h = first_with_text h ss ∧
  is_Some (first_with_text h ss) ∧
  reports h (map_log ms) = 1%nat ∧
  ∀ plan s, (reconcile E a T ms).1 = Done plan → s ∈ plan → sec_text s = h →
            first_with_text h ss = Some s.
Proof.
  intros Hp Hocc ms.
  assert (source_sections_map ms !! h = first_with_text h ss) as Hm.
  { unfold ms. rewrite section_map_lookup. by rewrite (proj2 (String.eqb_neq _ _) Hp). }
  split; [done|]. split; [|split].
  - unfold first_with_text, occurrences in *.
    destruct (filter _ ss) as [|s l] eqn:Hf; [simpl in Hocc; lia|].
    assert (s ∈ filter (λ s, sec_text s = h) ss) as [Hs Hin]%list_elem_of_filter
      by (rewrite Hf; by left).
    destruct (List.find _ ss) eqn:Hfind; [done|].
    apply list_elem_of_In in Hin. apply (List.find_none _ _ Hfind s) in Hin.
    apply String.eqb_neq in Hin. done.
  - pose proof (section_map_dup_inv ss) as [Hs Hsub Hnd Hlog].
    apply reports_once; [done|]. apply Hlog. exists h. split; [done|].
    unfold section_map. rewrite map_fold_dups.
    + right. split; [done|]. by right.
    + split; simpl; [done|done|constructor|].
      intros ev. split; [by intros ?%elem_of_nil|]. intros (? & _ & ?). set_solver.
  - intros plan s Hr Hs Ht.
    apply (reconcile_plan_parts a T _ plan) in Hr as ->.
    rewrite <- Hm. subst h.
    apply elem_of_app in Hs as [Hs|[Hs|Hs]%elem_of_app].
    + apply preamble_part_text in Hs. congruence.
    + apply matched_part_elem in Hs as (h & _ & _ & Hs).
      by rewrite (section_map_keyed ss h s Hs).
    + apply appended_part_elem in Hs as (_ & h & _ & _ & Hs).
      by rewrite (section_map_keyed ss h s Hs).
Qed.

(** Where no heading carries the preamble marker, the plan opens with the
    content before the first heading exactly when there is such content, and
    nothing else in the plan is a preamble. *)
Lemma preamble_first L body a T plan :
  marker_free L body →
  (reconcile E a T (section_map (preamble_of (group L body).1 ++ (group L body).2))).1
    = Done plan →
  ∃ rest, plan = preamble_of (group L body).1 ++ rest ∧
          ∀ s, s ∈ rest → s ∈ (group L body).2.
Proof.
  intros Hf Hr. apply reconcile_plan_parts in Hr.
  rewrite preamble_part_parse in Hr by done. eexists. split; [exact Hr|].
  set (ss := preamble_of (group L body).1 ++ (group L body).2).
  assert (∀ h s, source_sections_map (section_map ss) !! h = Some s →
                 s ∈ (group L body).2) as Hm.
  { intros h s (Ht & Hin & Hp)%section_map_key.
    apply elem_of_app in Hin as [Hin|Hin]; [|done].
    unfold preamble_of in Hin. destruct (group L body).1; [by apply elem_of_nil in Hin|].
    apply list_elem_of_singleton in Hin as ->. simpl in Ht. congruence. }
  intros s [(h & _ & _ & Hs)%matched_part_elem|Hs]%elem_of_app; [by eapply Hm|].
  apply appended_part_elem in Hs as (_ & h & _ & _ & Hs). by eapply Hm.
Qed.


End Plan.

(** ** Runs of the reorganizer *)

Lemma descending_env_ok : set_iter_ok descending_env.
Proof. intros X. apply merge_sort_Permutation. Qed.

(** Against C1 as stated.  Source headings A, B, C and target B: an
    iteration order that yields C before A appends C before A. *)
Lemma unmatched_order_counterexample :
  set_iter_ok descending_env ∧
  (reconcile descending_env (Args UAppend MWarn false 6) ["B"]
     (section_map [heading_section "A" 0; heading_section "B" 1; heading_section "C" 2])).1
  = Done [heading_section "B" 1; heading_section "C" 2; heading_section "A" 0] ∧
  ¬ appended_in_source_order descending_env (Args UAppend MWarn false 6) ["B"]
      [heading_section "A" 0; heading_section "B" 1; heading_section "C" 2].
Proof.
  split; [apply descending_env_ok|]. split; [by vm_compute|].
  unfold appended_in_source_order. vm_compute. intros [=].
Qed.

Lemma unmatched_policy_plan_witness :
  ∃ app,
    (reconcile descending_env (Args UAppend MWarn false 6) ["B"]
       (section_map [heading_section "A" 0; heading_section "B" 1;
                     heading_section "C" 2])).1 =
    Done ([] ++ [heading_section "B" 1] ++ app) ∧
    app ≡ₚ [heading_section "A" 0; heading_section "C" 2].
Proof.
  destruct (unmatched_policy_plan descending_env descending_env_ok (Args UAppend MWarn false 6) ["B"]
              [heading_section "A" 0; heading_section "B" 1; heading_section "C" 2]
              eq_refl) as (app & Hr & _ & Hp & _).
  exists app. split; [exact Hr|]. by apply Hp.
Defined.

Lemma no_section_twice_witness :
  NoDup [heading_section "B" 1; heading_section "C" 2; heading_section "A" 0].
Proof.
  exact (proj1 (proj2 (proj2
    (no_section_twice descending_env descending_env_ok (Args UAppend MWarn false 6) ["B"; "B"]
       [heading_section "A" 0; heading_section "B" 1; heading_section "C" 2;
        heading_section "A" 3]
       [heading_section "B" 1; heading_section "C" 2; heading_section "A" 0]
       eq_refl)))).
Defined.

Lemma missing_heading_policy_witness :
  returned (run_reorganize descending_env (Args UAppend MError false 6)
              (Some missing_toc) (Some missing_doc)) = Done false ∧
  saved (run_reorganize descending_env (Args UAppend MError false 6)
           (Some missing_toc) (Some missing_doc)) = None ∧
  saved (run_reorganize descending_env (Args UAppend MWarn false 6)
           (Some missing_toc) (Some missing_doc)) = Some missing_doc.
Proof.
  assert ("B" ∉ dom (source_sections_map
                       (section_map [Sect "A" 1 (Some missing_doc)]))) as Hn.
  { by vm_compute. }
  pose proof (missing_heading_policy descending_env descending_env_ok (Args UAppend MError false 6)
                (Some missing_toc) (Some missing_doc) [PStr "A"; PStr "B"] ["A"; "B"]
                [Sect "A" 1 (Some missing_doc)] "B"
                eq_refl eq_refl eq_refl
                ltac:(by right; left) Hn) as [H1 _].
  pose proof (missing_heading_policy descending_env descending_env_ok (Args UAppend MWarn false 6)
                (Some missing_toc) (Some missing_doc) [PStr "A"; PStr "B"] ["A"; "B"]
                [Sect "A" 1 (Some missing_doc)] "B"
                eq_refl eq_refl eq_refl
                ltac:(by right; left) Hn) as [_ H2].
  destruct (H1 eq_refl) as (Hr & _ & Hs).
  destruct (H2 ltac:(done)) as (plan & Hp & _ & _ & _ & _ & Hs2).
  split; [exact Hr|]. split; [exact Hs|].
  injection Hp as <-. exact Hs2.
Defined.

(** Against C5 as stated.  Three sections headed A: the third one passes
    without a report. *)
Lemma duplicate_report_counterexample :
  map_log (section_map [heading_section "A" 0; heading_section "A" 1;
                        heading_section "A" 2]) = [WarnDuplicate "A"] ∧
  ¬ every_duplicate_reported
      [heading_section "A" 0; heading_section "A" 1; heading_section "A" 2].
Proof.
  split; [by vm_compute|]. intros H.
  destruct (H "A") as [_ Hr]; [vm_compute; lia|]. vm_compute in Hr. discriminate.
Qed.

Lemma duplicate_heading_first_wins_witness :
  source_sections_map
    (section_map [heading_section "A" 0; heading_section "B" 1; heading_section "A" 2])
    !! "A" = Some (heading_section "A" 0) ∧
  reports "A" (map_log (section_map
    [heading_section "A" 0; heading_section "B" 1; heading_section "A" 2])) = 1%nat.
Proof.
  destruct (duplicate_heading_first_wins descending_env descending_env_ok (Args UAppend MWarn false 6) ["B"; "A"]
              [heading_section "A" 0; heading_section "B" 1; heading_section "A" 2] "A"
              ltac:(done) ltac:(vm_compute; lia)) as (Hm & _ & Hr & _).
  split; [exact Hm|exact Hr].
Defined.

(** C6, where the code departs from it.  [run_reorganize] takes for the
    preamble the last section whose text is the marker (line 193), where the
    extraction and the outline builder go by level 0.  On a body with an
    introduction, a heading whose text is the marker, and a heading A, the
    section of the marker heading is written first and the introduction, the
    non-empty content before the first heading, is written nowhere. *)
Theorem preamble_lost_to_marker_heading :
  parse_document_structure (Some marker_doc) 6 true =
    Some [Sect PREAMBLE 0 (Some [Element 0 "{w}p" (Some (Paragraph (Some "Normal") "Introduction"))]);
          Sect PREAMBLE 1 (Some [Element 1 "{w}p" (Some (Paragraph (Some "Heading 1") "__PREAMBLE__"))]);
          Sect "A" 1 (Some [Element 2 "{w}p" (Some (Paragraph (Some "Heading 1") "A"))])] ∧
  saved (run_reorganize descending_env (Args UAppend MWarn false 6)
           (Some (PDict [("toc", PList [PStr "A"])])) (Some marker_doc)) =
    Some [Element 1 "{w}p" (Some (Paragraph (Some "Heading 1") "__PREAMBLE__"));
          Element 2 "{w}p" (Some (Paragraph (Some "Heading 1") "A"))].
Proof. split; by vm_compute. Qed.

(** C7, where the code departs from it.  The headings A and the preamble
    marker are distinct and the target list is the document's own heading
    order, yet the section of the marker heading is written before A. *)
Theorem identity_outline_reorders_marker_heading :
  (λ ss : list section, sec_text <$> ss) <$>
    parse_document_structure (Some marker_last_doc) 6 true =
    Some ["A"; "__PREAMBLE__"] ∧
  saved (run_reorganize descending_env (Args UAppend MWarn false 6)
           (Some (PDict [("toc", PList [PStr "A"; PStr "__PREAMBLE__"])]))
           (Some marker_last_doc)) =
    Some [Element 1 "{w}p" (Some (Paragraph (Some "Heading 1") "__PREAMBLE__"));
          Element 0 "{w}p" (Some (Paragraph (Some "Heading 1") "A"))].
Proof. split; by vm_compute. Qed.

(** ** Heading identity *)

(** Against C8 as stated.  The target heading " A" is not matched with the
    source heading "A". *)
Lemma trimmed_target_counterexample :
  matched_with 6 [Element 0 "{w}p" (Some (Paragraph (Some "Heading 1") "A"))] " A" = None ∧
  ¬ matches_after_trimming_both 6
      [Element 0 "{w}p" (Some (Paragraph (Some "Heading 1") "A"))] " A".
Proof.
  split; [by vm_compute|]. intros [_ H].
  assert (is_Some (matched_with 6
            [Element 0 "{w}p" (Some (Paragraph (Some "Heading 1") "A"))] " A")) as [x Hx].
  { apply H. eexists _, 1, "A". split; [by left|]. by vm_compute. }
  vm_compute in Hx. discriminate.
Qed.

(** C8, amended. A target heading other than the preamble marker is matched
    exactly when it equals, character for character, the trimmed text of a
    heading paragraph of the source; the target heading itself is not
    trimmed, and nothing is folded or normalised.  It is then matched with
    the section of the first such heading. *)
Theorem heading_matching (L : Z) (body : list element) (h : string) :
  h ≠ PREAMBLE →
  (is_Some (matched_with L body h) ↔
   ∃ e n t, e ∈ body ∧ classify L e = Some (n, t) ∧ h = strip t) ∧
  (∀ s, matched_with L body h = Some s →
        first_with_text h (group L body).2 = Some s).
Proof.
  intros Hp. unfold matched_with. rewrite parse_true. simpl.
  rewrite section_map_lookup, (proj2 (String.eqb_neq _ _) Hp).
  assert (first_with_text h (preamble_of (group L body).1 ++ (group L body).2) =
          first_with_text h (group L body).2) as ->.
  { unfold preamble_of. destruct (group L body).1; [done|].
    change (first_with_text h (Sect PREAMBLE 0 (Some (e :: l)) :: (group L body).2) =
            first_with_text h (group L body).2).
    rewrite first_with_text_cons. cbn [sec_text].
    by rewrite (proj2 (String.eqb_neq PREAMBLE h)) by done. }
  split; [|done].
  rewrite first_with_text_is_Some. split.
  - intros (s & (e & n & t & c & -> & Hin & Hc & _)%group_heading & <-).
    by exists e, n, t.
  - intros (e & n & t & Hin & Hc & ->).
    apply list_elem_of_split in Hin as (before & after & ->).
    exists (Sect (strip t) n (Some (e :: (group L after).1))). split; [|done].
    apply group_heading. exists e, n, t, (group L after).1.
    split; [done|]. split; [|split; [done|]].
    + apply elem_of_app. right. by left.
    + by exists before, after.
Qed.

Lemma heading_matching_witness :
  is_Some (matched_with 6 missing_doc "A").
Proof.
  apply (proj1 (heading_matching 6 missing_doc "A" ltac:(done))).
  exists (Element 0 "{w}p" (Some (Paragraph (Some "Heading 1") "A"))), 1, "A".
  split; [by left|]. split; reflexivity.
Defined.

(** ** The outline as a forest *)

Lemma tree_ind' (P : tree → Prop) :
  (∀ hd lv ts, Forall P ts → P (Node hd lv ts)) → ∀ t, P t.
Proof.
  intros HP. apply (tree_rect' P (Forall P)); [constructor|by constructor|done].
Qed.

Lemma depth_le_size t : (depth t ≤ tsize t)%nat.
Proof.
  induction t as [hd lv ts IH] using tree_ind'. simpl.
  apply le_n_S. induction IH as [|t ts Ht _ IHts]; simpl; lia.
Qed.

Lemma forest_depth_le_size ts : (forest_depth ts ≤ forest_size ts)%nat.
Proof.
  induction ts as [|t ts IH]; simpl; [lia|]. pose proof (depth_le_size t). lia.
Qed.

Lemma forest_size_app ts1 ts2 :
  forest_size (ts1 ++ ts2) = (forest_size ts1 + forest_size ts2)%nat.
Proof. induction ts1 as [|t ts1 IH]; simpl; [done|]. rewrite IH. lia. Qed.

Lemma extract_item_dict kvs :
  extract_item (PDict kvs) =
    match dict_get "heading" kvs with
    | Some hd =>
        hd :: match dict_get "children" kvs with
              | Some (PList l) => extract_headings l
              | _ => []
              end
    | None => []
    end.
Proof.
  simpl. destruct (dict_get "heading" kvs); [|done]. f_equal.
  induction kvs as [|[k v] kvs IH]; [done|].
  simpl. destruct (String.eqb "children" k); [|done].
  by destruct v.
Qed.

(** The loader reads the headings of a built outline in pre-order. *)
Lemma extract_headings_pyval_of ts :
  extract_headings (map pyval_of ts) = PStr <$> flat_map preorder ts.
Proof.
  induction ts as [|t ts IH]; [done|].
  unfold extract_headings in *. simpl. rewrite IH, fmap_app. f_equal.
  clear IH. induction t as [hd lv cs IHc] using tree_ind'.
  assert (flat_map extract_item (map pyval_of cs) = PStr <$> flat_map preorder cs) as Hcs.
  { induction IHc as [|c cs Hc _ IHcs]; [done|]. simpl. by rewrite Hc, IHcs, fmap_app. }
  destruct cs as [|c cs]; [done|].
  change (pyval_of (Node hd lv (c :: cs))) with
    (PDict [("heading", PStr hd); ("level", PInt lv);
            ("children", PList (map pyval_of (c :: cs)))]).
  rewrite extract_item_dict.
  change (dict_get "heading" _) with (Some (PStr hd)).
  change (dict_get "children" _) with (Some (PList (map pyval_of (c :: cs)))).
  cbv beta iota. unfold extract_headings. by rewrite Hcs.
Qed.

(** ** The outline in the store *)

Lemma Forall2_Forall_impl {A B} (P : A → Prop) (R R' : A → B → Prop) xs ys :
  Forall P xs → Forall2 R xs ys → (∀ x y, P x → R x y → R' x y) → Forall2 R' xs ys.
Proof.
  intros HP HR Himpl. induction HR as [|x y xs ys Hxy _ IH]; [constructor|].
  apply Forall_cons in HP as [Hx HP]. constructor; auto.
Qed.

(** A closed tree survives any change of the store that keeps the existing
    dictionaries and the lists outside [live]. *)
Lemma closed_frame h h' live live' t a :
  closed h live t a →
  (∀ a d, dicts h !! a = Some d → dicts h' !! a = Some d) →
  (∀ c l, lists h !! c = Some l → c ∉ live → lists h' !! c = Some l ∧ c ∉ live') →
  closed h' live' t a.
Proof.
  intros Hc Hd Hl. revert a Hc.
  induction t as [hd lv ts IH] using tree_ind'. intros a Hc.
  inversion Hc as [? ? ? ? c l Ha Hnl Hlc Hts]; subst.
  destruct (Hl c l Hlc Hnl) as [Hlc' Hnl'].
  econstructor; eauto.
  eapply Forall2_Forall_impl; [exact IH|exact Hts|]. auto.
Qed.

Lemma closed_forest_frame h h' live live' ts l :
  Forall2 (closed h live) ts l →
  (∀ a d, dicts h !! a = Some d → dicts h' !! a = Some d) →
  (∀ c l, lists h !! c = Some l → c ∉ live → lists h' !! c = Some l ∧ c ∉ live') →
  Forall2 (closed h' live') ts l.
Proof.
  intros Hf Hd Hl. eapply Forall2_impl; [exact Hf|].
  intros t a Hc. by eapply closed_frame.
Qed.

Section Builder.

(** The address of the result list [nested_toc]. *)
Variable root : addr.

Lemma spine_frame h h' live live' stack frames roots tail :
  spine h root live stack frames roots tail →
  (∀ a d, dicts h !! a = Some d → dicts h' !! a = Some d) →
  (∀ c l, lists h !! c = Some l → c ∉ live → lists h' !! c = Some l ∧ c ∉ live') →
  (∀ c l, c ∈ live_of root frames → lists h !! c = Some l → lists h' !! c = Some l) →
  spine h' root live' stack frames roots tail.
Proof.
  intros Hs Hd Hl. revert stack tail Hs.
  induction frames as [|f fs IH]; intros stack tail Hs Hlive; simpl in *.
  - destruct Hs as (-> & l & Hr & Hc). split; [done|]. exists l. split.
    + apply Hlive; [by left|done].
    + by eapply closed_forest_frame.
  - destruct Hs as (L & stack' & -> & Hn & (l & Hcl & Hdone) & HL & Hs).
    exists L, stack'. split; [done|]. split; [by apply Hd|]. split; [|split].
    + exists l. split; [|by eapply closed_forest_frame].
      apply Hlive; [|done]. right. by left.
    + destruct fs as [|p fs']; [|done]. destruct HL as [HL1 HL2].
      destruct (Hl L _ HL2 HL1). done.
    + apply IH; [done|]. intros c lc Hc. apply Hlive.
      apply elem_of_cons in Hc as [->|Hc]; [by left|]. right. by right.
Qed.

(** The lists of the open nodes exist in the store. *)
Lemma spine_live_allocated h live stack frames roots tail c :
  spine h root live stack frames roots tail →
  c ∈ live_of root frames → is_Some (lists h !! c).
Proof.
  revert stack tail. induction frames as [|f fs IH]; intros stack tail Hs Hc; simpl in *.
  - destruct Hs as (_ & l & Hr & _). apply list_elem_of_singleton in Hc as ->. eauto.
  - destruct Hs as (L & stack' & _ & _ & (l & Hcl & _) & _ & Hs).
    apply elem_of_cons in Hc as [->|[->|Hc]%elem_of_cons].
    + eapply IH; [exact Hs|by left].
    + eauto.
    + eapply IH; [exact Hs|by right].
Qed.

Lemma plug_pop_frames level frames roots pend :
  plug (pop_frames level frames roots pend).1 (pop_frames level frames roots pend).2 [] =
  plug frames roots pend.
Proof.
  revert pend. induction frames as [|f fs IH]; intros pend; simpl.
  - by rewrite app_nil_r.
  - destruct (level <=? f_level f); [apply IH|]. simpl. by rewrite app_nil_r.
Qed.

Lemma plug_preorder frames roots pend :
  flat_map preorder (plug frames roots pend) =
  flat_map preorder (plug frames roots []) ++ flat_map preorder pend.
Proof.
  revert pend. induction frames as [|f fs IH]; intros pend; simpl.
  - by rewrite app_nil_r, flat_map_app.
  - rewrite (IH [Node _ _ (f_done f ++ pend)]), (IH [Node _ _ (f_done f ++ [])]).
    simpl. rewrite !app_nil_r, flat_map_app.
    by rewrite <- !app_assoc.
Qed.

Lemma plug_size frames roots pend :
  forest_size (plug frames roots pend) =
  (forest_size (plug frames roots []) + forest_size pend)%nat.
Proof.
  revert pend. induction frames as [|f fs IH]; intros pend; simpl.
  - rewrite app_nil_r, forest_size_app. done.
  - rewrite (IH [Node _ _ (f_done f ++ pend)]), (IH [Node _ _ (f_done f ++ [])]).
    simpl. fold (forest_size (f_done f ++ pend)). fold (forest_size (f_done f ++ [])).
    rewrite !forest_size_app. simpl. lia.
Qed.

(** Popping the stack closes the same open nodes in the store, which itself
    does not change. *)
Lemma pop_sim h level frames stack roots pend tail :
  spine h root (live_of root frames) stack frames roots tail →
  Forall2 (closed h (live_of root frames)) pend tail →
  NoDup (live_of root frames) →
  NoDup (live_of root (pop_frames level frames roots pend).1) ∧
  spine h root (live_of root (pop_frames level frames roots pend).1)
        (pop_while level stack)
        (pop_frames level frames roots pend).1 (pop_frames level frames roots pend).2 [].
Proof.
  revert stack pend tail. induction frames as [|f fs IH]; intros stack pend tail Hs Hp Hnd.
  - simpl in *. destruct Hs as (-> & l & Hr & Hc). split; [done|]. simpl.
    split; [done|]. exists (l ++ tail). split; [by rewrite app_nil_r|].
    by apply Forall2_app.
  - simpl in Hs. destruct Hs as (L & stack' & -> & Hn & (l & Hcl & Hdone) & HL & Hs).
    simpl. destruct (level <=? f_level f) eqn:Hlv.
    + assert (∀ c (lc : list addr), lists h !! c = Some lc → c ∉ live_of root (f :: fs) →
                lists h !! c = Some lc ∧ c ∉ live_of root fs) as Hshrink.
      { intros c lc Hc Hn'. split; [done|]. intros Hin. apply Hn'.
        apply elem_of_cons in Hin as [->|Hin]; [by left|]. right. by right. }
      assert (f_children f ∉ live_of root fs) as Hfresh.
      { unfold live_of in *. simpl in Hnd.
        apply NoDup_cons in Hnd as [Hr Hnd]. apply NoDup_cons in Hnd as [Hc Hnd].
        intros [Heq|Hin]%elem_of_cons; [|done]. apply Hr. rewrite <- Heq. by left. }
      apply (IH stack' _ [f_node f]).
      * eapply spine_frame; [exact Hs|done|exact Hshrink|done].
      * constructor; [|constructor]. econstructor; [exact Hn|exact Hfresh|exact Hcl|].
        apply Forall2_app; by eapply closed_forest_frame.
      * unfold live_of in *. simpl in Hnd.
        apply NoDup_cons in Hnd as [Hr Hnd]. apply NoDup_cons in Hnd as [Hc Hnd].
        apply NoDup_cons. split; [|done]. intros Hin. apply Hr. by right.
    + simpl. split; [done|]. exists L, stack'. simpl.
      split; [done|]. split; [done|]. split; [|done].
      exists (l ++ tail). split; [by rewrite app_nil_r|]. by apply Forall2_app.
Qed.

(** At the end every open node is closed, and the result list spells the
    whole forest. *)
Lemma spine_plug h frames stack roots pend tail :
  spine h root (live_of root frames) stack frames roots tail →
  Forall2 (closed h (live_of root frames)) pend tail →
  NoDup (live_of root frames) →
  ∃ l, lists h !! root = Some l ∧ Forall2 (closed h [root]) (plug frames roots pend) l.
Proof.
  revert stack pend tail. induction frames as [|f fs IH]; intros stack pend tail Hs Hp Hnd.
  - simpl in *. destruct Hs as (-> & l & Hr & Hc).
    exists (l ++ tail). split; [done|]. by apply Forall2_app.
  - simpl in Hs. destruct Hs as (L & stack' & -> & Hn & (l & Hcl & Hdone) & HL & Hs).
    simpl.
    assert (∀ c (lc : list addr), lists h !! c = Some lc → c ∉ live_of root (f :: fs) →
              lists h !! c = Some lc ∧ c ∉ live_of root fs) as Hshrink.
    { intros c lc Hc Hn'. split; [done|]. intros Hin. apply Hn'.
      apply elem_of_cons in Hin as [->|Hin]; [by left|]. right. by right. }
    unfold live_of in Hnd. simpl in Hnd.
    apply NoDup_cons in Hnd as [Hr Hnd]. apply NoDup_cons in Hnd as [Hc Hnd].
    apply (IH stack' _ [f_node f]).
    + eapply spine_frame; [exact Hs|done|exact Hshrink|done].
    + constructor; [|constructor]. econstructor; [exact Hn| |exact Hcl|].
      * intros [Heq|Hin]%elem_of_cons; [|done]. apply Hr. rewrite <- Heq. by left.
      * apply Forall2_app; by eapply closed_forest_frame.
    + apply NoDup_cons. split; [|done]. intros Hin. apply Hr. by right.
Qed.

(** ** One step of the builder *)

Lemma ensure_children_new h node hd lv :
  dicts h !! node = Some (new_dict hd lv) →
  ensure_children node h =
    Some (Heap (<[node := node_dict hd lv (length (lists h))]> (dicts h))
               (lists h ++ [[]])).
Proof.
  intros Hd. unfold ensure_children. rewrite Hd. cbn [mbind option_bind].
  change (dict_has "children" (new_dict hd lv)) with false. cbv iota.
  unfold alloc_list, dict_store. cbn [dicts lists]. rewrite Hd. done.
Qed.

Lemma ensure_children_old h a hd lv c :
  dicts h !! a = Some (node_dict hd lv c) → ensure_children a h = Some h.
Proof. intros Hd. unfold ensure_children. by rewrite Hd. Qed.

Lemma children_of_node h a hd lv c :
  dicts h !! a = Some (node_dict hd lv c) → children_of a h = Some c.
Proof. intros Hd. unfold children_of. by rewrite Hd. Qed.

Lemma spine_top_last h live lv L st f fs roots tail :
  spine h root live ((lv, L) :: st) (f :: fs) roots tail →
  heap_last L h = Some (f_node f).
Proof.
  simpl. intros (L' & st' & [= <- <- <-] & _ & _ & HL & Hs).
  unfold heap_last, list_last. destruct fs as [|p fs].
  - destruct HL as [_ ->]. done.
  - subst L. simpl in Hs. destruct Hs as (_ & _ & _ & _ & (l & -> & _) & _).
    simpl. by rewrite last_snoc.
Qed.

Lemma attach_node h cur l hd lv :
  lists h !! cur = Some l →
  ∃ h',
    (h1 ← list_append cur (length (dicts h)) (Heap (dicts h ++ [new_dict hd lv]) (lists h));
     ensure_children (length (dicts h)) h1) = Some h' ∧
    length (lists h') = S (length (lists h)) ∧
    step_frame h h' cur hd lv.
Proof.
  intros Hcur. unfold list_append. cbn [dicts lists]. rewrite Hcur.
  cbn [mbind option_bind].
  assert (cur < length (lists h))%nat as Hlt by (by eapply lookup_lt_Some).
  erewrite ensure_children_new.
  2:{ cbn [dicts]. rewrite lookup_app_r by done. by rewrite Nat.sub_diag. }
  cbn [dicts lists]. rewrite length_insert.
  eexists. split; [done|]. split.
  { cbn [lists]. rewrite length_app, length_insert. simpl. lia. }
  split; cbn [dicts lists].
  - intros a d Ha.
    assert (a < length (dicts h))%nat by (by eapply lookup_lt_Some).
    rewrite list_lookup_insert_ne by lia. by rewrite lookup_app_l.
  - intros c lc Hc Hne.
    assert (c < length (lists h))%nat by (by eapply lookup_lt_Some).
    rewrite lookup_app_l by (by rewrite length_insert).
    by rewrite list_lookup_insert_ne.
  - intros l' Hl'. rewrite Hcur in Hl'. injection Hl' as <-.
    rewrite lookup_app_l by (by rewrite length_insert).
    by rewrite list_lookup_insert_eq.
  - rewrite list_lookup_insert_eq; [done|]. rewrite length_app. simpl. lia.
  - rewrite lookup_app_r by (by rewrite length_insert).
    by rewrite length_insert, Nat.sub_diag.
Qed.

Lemma step_frame_alloc h h' cur hd lv x :
  step_frame h h' cur hd lv →
  (length (lists h) < length (lists h'))%nat →
  step_frame h (Heap (dicts h') (lists h' ++ [x])) cur hd lv.
Proof.
  intros [Hd Hl Hc Hn Hnew] Hlen. split; cbn [dicts lists]; [done|..|done|].
  - intros c lc Hlc Hne. apply lookup_app_l_Some. by apply Hl.
  - intros l Hcur. apply lookup_app_l_Some. by apply Hc.
  - by apply lookup_app_l_Some.
Qed.

Lemma spine_attach h h' stack frames roots hd lv live' :
  spine h root (live_of root frames) stack frames roots [] →
  NoDup (live_of root frames) →
  step_frame h h' (current root frames) hd lv →
  (∀ c, c ∈ live' → c ∈ live_of root frames ∨ (length (lists h) ≤ c)%nat) →
  spine h' root live' stack frames roots [length (dicts h)].
Proof.
  intros Hs Hnd [Hd Hl Hc Hn Hnew] Hlive.
  assert (current root frames ∈ live_of root frames) as Hcur.
  { unfold current, live_of. destruct frames; [by left|]. right. by left. }
  assert (∀ c (lc : list addr), lists h !! c = Some lc → c ∉ live_of root frames →
            lists h' !! c = Some lc ∧ c ∉ live') as Hframe.
  { intros c lc Hlc Hnin. split.
    - apply Hl; [done|]. intros ->. done.
    - intros [?|?]%Hlive; [done|].
      assert (c < length (lists h))%nat by (by eapply lookup_lt_Some). lia. }
  destruct frames as [|p fs]; simpl in *.
  - destruct Hs as (-> & l & Hr & Hcl). split; [done|].
    rewrite app_nil_r in Hr. exists l. split; [by apply Hc|].
    by eapply closed_forest_frame.
  - destruct Hs as (L & stack' & -> & Hp & (l & Hcp & Hdone) & HL & Hs).
    rewrite app_nil_r in Hcp.
    exists L, stack'. split; [done|]. split; [by apply Hd|]. split; [|split].
    + exists l. split; [by apply Hc|]. by eapply closed_forest_frame.
    + destruct fs as [|p' fs']; [|done]. destruct HL as [HL1 HL2].
      destruct (Hframe L _ HL2 HL1). done.
    + eapply spine_frame; [exact Hs|done|done|].
      intros c lc Hin Hlc. apply Hl; [done|]. intros ->.
      unfold live_of in Hnd. simpl in Hnd.
      apply NoDup_cons in Hnd as [Hr Hnd]. apply NoDup_cons in Hnd as [Hcp' Hnd].
      apply elem_of_cons in Hin as [Heq|Hin]; [|done].
      apply Hr. rewrite <- Heq. by left.
Qed.

Lemma build_step_frames h stack frames roots s :
  Inv h root stack frames roots →
  sec_level s ≠ 0 →
  ∃ h' stack' node cnew,
    build_step root (h, stack) s = Some (h', stack') ∧
    Inv h' root stack'
      (Frame (sec_level s) (sec_text s) [] node cnew
         :: (pop_frames (sec_level s) frames roots []).1)
      (pop_frames (sec_level s) frames roots []).2.
Proof.
  intros [Hnd Hs] Hlv.
  set (lv := sec_level s) in *. set (hd := sec_text s).
  destruct (pop_sim h lv frames stack roots [] [] Hs ltac:(constructor) Hnd)
    as [Hnd' Hs'].
  destruct (pop_frames lv frames roots []) as [fp rp]. simpl in Hnd', Hs'.
  cbn [fst snd].
  set (node := length (dicts h)). set (cnew := length (lists h)).
  assert (is_Some (lists h !! current root fp)) as [l Hcur].
  { eapply spine_live_allocated; [exact Hs'|].
    unfold current, live_of. destruct fp; [by left|]. right. by left. }
  destruct (attach_node h (current root fp) l hd lv Hcur) as (h' & Hatt & Hlen & Hsf).
  assert (∀ c, c ∈ live_of root fp → (c < cnew)%nat) as Hold.
  { intros c Hc. destruct (spine_live_allocated _ _ _ _ _ _ c Hs' Hc) as [lc Hlc].
    by eapply lookup_lt_Some. }
  assert (NoDup (live_of root (Frame lv hd [] node cnew :: fp))) as Hnd''.
  { unfold live_of in *. simpl. apply NoDup_cons in Hnd' as [Hr Hnd'].
    apply NoDup_cons. split.
    - intros [Heq|Hin]%elem_of_cons; [|done].
      assert (root < cnew)%nat by (apply Hold; by left). lia.
    - apply NoDup_cons. split; [|done]. intros Hin.
      assert (cnew < cnew)%nat by (apply Hold; by right). lia. }
  assert (∀ c, c ∈ live_of root (Frame lv hd [] node cnew :: fp) →
               c ∈ live_of root fp ∨ (length (lists h) ≤ c)%nat) as Hlive.
  { unfold live_of. simpl. intros c [->|[->|Hin]%elem_of_cons]%elem_of_cons.
    - left. by left.
    - right. done.
    - left. by right. }
  unfold build_step. fold lv hd. rewrite (proj2 (Z.eqb_neq lv 0) Hlv).
  unfold alloc_dict. fold node. fold (new_dict hd lv).
  destruct fp as [|p fs].
  - (* the new node is a root *)
    pose proof Hs' as Hs0.
    simpl in Hs'. destruct Hs' as (Hst & _). rewrite Hst in Hs0 |- *.
    simpl in Hatt. fold node in Hatt.
    destruct (list_append root node _) as [h1|]; [|done].
    cbn [mbind option_bind] in Hatt |- *. rewrite Hatt.
    cbn [mbind option_bind]. unfold alloc_list.
    eexists _, _, node, cnew.
    split; [done|].
    split; [done|].
    pose proof (step_frame_alloc h h' root hd lv [node] Hsf ltac:(lia)) as Hsf'.
    set (h'' := Heap (dicts h') (lists h' ++ [[node]])) in *.
    pose proof Hsf' as [Hd' Hl' Hc' Hn' Hnew'].
    cbn [spine]. exists (length (lists h')), []. split; [done|].
    split; [done|]. split; [|split].
    + exists []. split; [done|constructor].
    + split.
      * unfold live_of. simpl. rewrite Hlen. fold cnew.
        intros [Heq|[Heq|Hin%elem_of_nil]%elem_of_cons]%elem_of_cons; [|lia|done].
        assert (root < cnew)%nat by (apply Hold; by left). lia.
      * unfold h''. cbn [lists]. rewrite lookup_app_r by done. by rewrite Nat.sub_diag.
    + apply (spine_attach h h'' [] [] rp hd lv); [done| |done|done].
      unfold live_of. simpl. apply NoDup_singleton.
  - (* the new node is a child of the innermost open node *)
    pose proof Hs' as Hs''.
    simpl in Hs''. destruct Hs'' as (L & st & Hst & Hp & _ & HL & Hsub).
    rewrite Hst in *.
    pose proof (spine_top_last _ _ _ _ _ _ _ _ _ Hs') as Hlast.
    assert (heap_last L (Heap (dicts h ++ [new_dict hd lv]) (lists h)) = Some (f_node p))
      as Hlast1 by exact Hlast.
    assert (dicts (Heap (dicts h ++ [new_dict hd lv]) (lists h)) !! f_node p =
            Some (node_dict (f_heading p) (f_level p) (f_children p))) as Hp1.
    { cbn [dicts]. by apply lookup_app_l_Some. }
    rewrite Hlast1. cbn [mbind option_bind].
    rewrite (ensure_children_old _ _ _ _ _ Hp1). cbn [mbind option_bind].
    rewrite Hlast1. cbn [mbind option_bind].
    rewrite (children_of_node _ _ _ _ _ Hp1). cbn [mbind option_bind].
    simpl in Hatt. fold node in Hatt.
    destruct (list_append (f_children p) node _) as [h1|]; [|done].
    cbn [mbind option_bind] in Hatt |- *. rewrite Hatt.
    cbn [mbind option_bind].
    destruct Hsf as [Hd' Hl' Hc' Hn' Hnew'].
    assert (L ≠ f_children p) as HLne.
    { destruct fs as [|p' fs'].
      - destruct HL as [HL _]. intros ->. apply HL. right. by left.
      - subst L. unfold live_of in Hnd'. simpl in Hnd'.
        apply NoDup_cons in Hnd' as [_ Hnd']. apply NoDup_cons in Hnd' as [Hin _].
        intros Heq. apply Hin. rewrite <- Heq. by left. }
    assert (heap_last L h' = Some (f_node p)) as Hlast'.
    { unfold heap_last in *. destruct (lists h !! L) as [lL|] eqn:HlL; [|done].
      by rewrite (Hl' L lL HlL HLne). }
    rewrite Hlast'. cbn [mbind option_bind].
    rewrite (children_of_node h' _ _ _ _ (Hd' _ _ Hp)). cbn [mbind option_bind].
    eexists _, _, node, cnew.
    split; [done|]. split; [done|].
    simpl. exists (f_children p), ((f_level p, L) :: st). split; [done|].
    split; [done|]. split; [|split; [done|]].
    + exists []. split; [done|constructor].
    + apply (spine_attach h h' ((f_level p, L) :: st) (p :: fs) rp hd lv);
        [done|done|by split|done].
Qed.

Lemma build_step_sim h stack frames roots s :
  Inv h root stack frames roots →
  sec_level s ≠ 0 →
  ∃ h' stack' frames' roots',
    build_step root (h, stack) s = Some (h', stack') ∧
    Inv h' root stack' frames' roots' ∧
    flat_map preorder (plug frames' roots' []) =
      flat_map preorder (plug frames roots []) ++ [sec_text s] ∧
    forest_size (plug frames' roots' []) = S (forest_size (plug frames roots [])).
Proof.
  intros HI Hlv.
  destruct (build_step_frames h stack frames roots s HI Hlv)
    as (h' & stack' & node & cnew & Hstep & HI').
  pose proof (plug_pop_frames (sec_level s) frames roots []) as Hplug.
  destruct (pop_frames (sec_level s) frames roots []) as [fp rp]. simpl in HI', Hplug.
  exists h', stack', (Frame (sec_level s) (sec_text s) [] node cnew :: fp), rp.
  split; [done|]. split; [done|].
  simpl. rewrite plug_preorder, plug_size, Hplug. simpl. split; [done|lia].
Qed.

Lemma build_loop_sim flat h stack frames roots :
  Inv h root stack frames roots →
  ∃ h' stack' frames' roots',
    build_loop root (h, stack) flat = Some (h', stack') ∧
    Inv h' root stack' frames' roots' ∧
    flat_map preorder (plug frames' roots' []) =
      flat_map preorder (plug frames roots []) ++
      (sec_text <$> filter (λ s, sec_level s ≠ 0) flat) ∧
    forest_size (plug frames' roots' []) =
      (forest_size (plug frames roots []) +
       length (filter (λ s, sec_level s ≠ 0%Z) flat))%nat.
Proof.
  revert h stack frames roots.
  induction flat as [|s flat IH]; intros h stack frames roots HI.
  - exists h, stack, frames, roots. simpl. rewrite app_nil_r. split; [done|].
    split; [done|]. split; [done|lia].
  - rewrite filter_cons. destruct (decide (sec_level s ≠ 0)) as [Hlv|Hlv].
    + destruct (build_step_sim h stack frames roots s HI Hlv)
        as (h1 & st1 & f1 & r1 & Hstep & HI1 & Hpre1 & Hsize1).
      destruct (IH h1 st1 f1 r1 HI1) as (h' & st' & f' & r' & Hloop & HI' & Hpre & Hsize).
      exists h', st', f', r'. cbn [build_loop]. rewrite Hstep. cbn [mbind option_bind].
      split; [done|]. split; [done|]. rewrite fmap_cons, length_cons. split.
      * rewrite Hpre, Hpre1. by rewrite <- app_assoc.
      * rewrite Hsize, Hsize1. lia.
    + apply dec_stable in Hlv.
      destruct (IH h stack frames roots HI) as (h' & st' & f' & r' & Hloop & HI' & Hpre & Hsize).
      exists h', st', f', r'. cbn [build_loop]. unfold build_step. rewrite Hlv.
      done.
Qed.

End Builder.

(** ** Clean-up and read-out *)

Lemma trims_refl h : trims h h.
Proof. split; [done|]. intros a d Hd. by left. Qed.

Lemma trims_trans h1 h2 h3 : trims h1 h2 → trims h2 h3 → trims h1 h3.
Proof.
  intros [Hl12 Hd12] [Hl23 Hd23]. split; [congruence|].
  intros a d Hd. destruct (Hd12 a d Hd) as [Hd2|(hd & lv & c & -> & Hc & Hd2)].
  - destruct (Hd23 a d Hd2) as [Hd3|(hd & lv & c & -> & Hc & Hd3)]; [by left|].
    right. exists hd, lv, c. rewrite <- Hl12. done.
  - right. exists hd, lv, c. split; [done|]. split; [done|].
    destruct (Hd23 a _ Hd2) as [Hd3|(hd' & lv' & c' & Heq & _)]; [done|].
    discriminate.
Qed.

Lemma cleaned_trims h h' t a : cleaned h t a → trims h h' → cleaned h' t a.
Proof.
  intros Hc [Hl Hd]. revert a Hc.
  induction t as [hd lv ts IH] using tree_ind'. intros a Hc.
  inversion Hc as [? ? ? Ha|? ? t1 ts1 ? c l Ha Hlc Hts]; subst.
  - destruct (Hd a _ Ha) as [Ha'|(hd' & lv' & c' & Heq & _)]; [|discriminate].
    by constructor.
  - destruct (Hd a _ Ha) as [Ha'|(hd' & lv' & c' & Heq & Hc' & _)].
    + econstructor; [exact Ha'|by rewrite Hl|].
      eapply Forall2_Forall_impl; [exact IH|exact Hts|]. auto.
    + injection Heq as <- <- <-. rewrite Hlc in Hc'. injection Hc' as ->.
      inversion Hts.
Qed.

Lemma forest_depth_cons t ts :
  forest_depth (t :: ts) = max (depth t) (forest_depth ts).
Proof. done. Qed.

Lemma depth_node hd lv ts : depth (Node hd lv ts) = S (forest_depth ts).
Proof. done. Qed.

(** The clean-up runs through and leaves every node of a closed forest
    cleaned. *)
Lemma cleanup_spec h0 live fuel : ∀ ts l r h,
  Forall2 (closed h0 live) ts l →
  lists h0 !! r = Some l →
  trims h0 h →
  (forest_depth ts < fuel)%nat →
  ∃ h', cleanup_empty_children fuel r h = Some h' ∧ trims h h' ∧
        Forall2 (cleaned h') ts l.
Proof.
  induction fuel as [|f IHf]; intros ts l r h Hts Hr Ht Hd; [lia|].
  cbn [cleanup_empty_children].
  assert (lists h !! r = Some l) as -> by (destruct Ht as [-> _]; done).
  cbn [mbind option_bind]. clear Hr r.
  match goal with |- context [foldl ?g _ _] => set (body := g) end.
  revert h Ht. induction Hts as [|t a ts l Hta Hts IH]; intros h Ht.
  - exists h. split; [done|]. split; [apply trims_refl|constructor].
  - cbn [foldl]. rewrite forest_depth_cons in Hd.
    assert (∃ h1, body (Some h) a = Some h1 ∧ trims h h1 ∧ cleaned h1 t a)
      as (h1 & -> & Ht1 & Hc1).
    { inversion Hta as [hd lv cs ? c lc Ha Hnl Hlc Hcs]; subst.
      rewrite depth_node in Hd.
      pose proof Ht as [Hl Hdt].
      unfold body. cbn [mbind option_bind].
      destruct (Hdt a _ Ha) as [Hah|(hd' & lv' & c' & Heq & Hc0 & Hah)].
      - rewrite Hah. cbn [mbind option_bind].
        change (dict_has "children" (node_dict hd lv c)) with true. cbv iota.
        rewrite (children_of_node h a hd lv c Hah). cbn [mbind option_bind].
        assert (lists h !! c = Some lc) as Hlch by (by rewrite Hl).
        rewrite Hlch. cbn [mbind option_bind].
        destruct lc as [|x lc'].
        + rewrite bool_decide_eq_true_2 by done. cbn [mbind option_bind].
          rewrite (children_of_node h a hd lv c Hah). cbn [mbind option_bind].
          rewrite Hlch. cbn [mbind option_bind].
          rewrite bool_decide_eq_true_2 by done. rewrite Hah. cbn [mbind option_bind].
          change (dict_del "children" (node_dict hd lv c)) with (new_dict hd lv).
          assert (a < length (dicts h))%nat as Hlt by (by eapply lookup_lt_Some).
          eexists. split; [done|]. split; [split|].
          * done.
          * intros a' d Hd'. cbn [dicts]. destruct (decide (a' = a)) as [->|Hne].
            -- right. exists hd, lv, c. rewrite Hah in Hd'. injection Hd' as <-.
               split; [done|]. split; [done|]. by rewrite list_lookup_insert_eq.
            -- left. by rewrite list_lookup_insert_ne.
          * inversion Hcs; subst. constructor. cbn [dicts].
            by rewrite list_lookup_insert_eq.
        + rewrite bool_decide_eq_false_2 by done.
          destruct (IHf cs (x :: lc') c h Hcs Hlc Ht ltac:(lia))
            as (h1 & -> & Ht1 & Hcl). cbn [mbind option_bind].
          destruct Ht1 as [Hl1 Hd1].
          assert (dicts h1 !! a = Some (node_dict hd lv c)) as Hah1.
          { destruct (Hd1 a _ Hah) as [?|(hd' & lv' & c' & Heq & Hc' & _)]; [done|].
            injection Heq as <- <- <-. rewrite Hlch in Hc'. discriminate. }
          rewrite (children_of_node h1 a hd lv c Hah1). cbn [mbind option_bind].
          rewrite Hl1, Hlch. cbn [mbind option_bind].
          rewrite bool_decide_eq_false_2 by done.
          exists h1. split; [done|]. split; [by split|].
          inversion Hcs; subst. econstructor; [exact Hah1|by rewrite Hl1|done].
      - injection Heq as <- <- <-. rewrite Hah. cbn [mbind option_bind].
        change (dict_has "children" (new_dict hd lv)) with false. cbv iota.
        exists h. split; [done|]. split; [apply trims_refl|].
        rewrite Hlc in Hc0. injection Hc0 as ->. inversion Hcs; subst.
        by constructor. }
    destruct (IH ltac:(lia) h1 (trims_trans _ _ _ Ht Ht1)) as (h' & Hfold & Ht' & Hcl).
    exists h'. split; [done|]. split; [by eapply trims_trans|].
    constructor; [by eapply cleaned_trims|done].
Qed.

(** Reading a cleaned node out of the store gives its value. *)
Lemma reify_spec h t : ∀ fuel a,
  cleaned h t a → (depth t ≤ fuel)%nat → reify_node fuel h a = Some (pyval_of t).
Proof.
  induction t as [hd lv ts IH] using tree_ind'. intros fuel a Hc Hd.
  rewrite depth_node in Hd. destruct fuel as [|f]; [lia|].
  cbn [reify_node].
  inversion Hc as [? ? ? Ha|? ? t1 ts1 ? c l Ha Hlc Hts]; subst.
  - rewrite Ha. done.
  - rewrite Ha. cbn [mbind option_bind]. unfold node_dict. cbn [mapM snd fst].
    cbn [mbind mret option_bind option_ret]. rewrite Hlc. cbn [mbind option_bind].
    assert (mapM (reify_node f h) l = Some (map pyval_of (t1 :: ts1))) as ->; [|done].
    apply mapM_Some. clear Ha Hlc Hc.
    assert (forest_depth (t1 :: ts1) ≤ f)%nat as Hdf by lia. clear Hd.
    revert Hdf. generalize (t1 :: ts1) IH Hts. clear.
    intros ts IH Hts. induction Hts as [|t a ts l Hta Hts IHts]; intros Hdf; [constructor|].
    apply Forall_cons in IH as [IHt IH]. rewrite forest_depth_cons in Hdf.
    simpl. constructor; [apply IHt; [done|lia]|]. apply IHts; [done|lia].
Qed.

(** ** The built outline (C2, C3) *)

Lemma forest_depth_elem t ts : t ∈ ts → (depth t ≤ forest_depth ts)%nat.
Proof.
  induction ts as [|x ts IH]; [by intros ?%elem_of_nil|].
  rewrite forest_depth_cons. intros [->|Hin]%elem_of_cons; [lia|].
  apply IH in Hin. lia.
Qed.

(** [build_nested_toc] runs through on every list of sections; its result
    is the value of a forest whose pre-order is the list of the headings of
    non-zero level. *)
Lemma build_nested_toc_forest flat :
  ∃ forest,
    build_nested_toc flat = Some (map pyval_of forest) ∧
    flat_map preorder forest = sec_text <$> filter (λ s, sec_level s ≠ 0) flat.
Proof.
  unfold build_nested_toc, alloc_list, empty_heap. cbn [lists dicts length app].
  assert (Inv (Heap [] [[]]) 0%nat [] [] []) as HI.
  { split; [apply NoDup_singleton|]. simpl. split; [done|]. exists []. split; [done|constructor]. }
  destruct (build_loop_sim 0%nat flat _ _ _ _ HI)
    as (h' & st' & f' & r' & -> & [Hnd Hs] & Hpre & Hsize).
  cbn [mbind option_bind].
  destruct (spine_plug 0%nat h' f' st' r' [] [] Hs ltac:(constructor) Hnd)
    as (l & Hroot & Hcl).
  set (forest := plug f' r' []) in *.
  assert (forest_depth forest ≤ length flat)%nat as Hdepth.
  { etrans; [apply forest_depth_le_size|]. rewrite Hsize. simpl.
    apply length_filter. }
  destruct (cleanup_spec h' [0%nat] (S (length flat)) forest l 0%nat h' Hcl Hroot
              (trims_refl h') ltac:(lia)) as (h'' & -> & [Hl _] & Hclean).
  cbn [mbind option_bind]. exists forest. split; [|done].
  unfold reify_list. rewrite Hl, Hroot. cbn [mbind option_bind].
  apply mapM_Some. apply Forall2_fmap_r.
  apply Forall2_flip. eapply Forall2_impl.
  - apply Forall2_same_length_lookup_2; [by eapply Forall2_length|].
    intros i t a Ht Ha. instantiate (1 := λ t a, cleaned h'' t a ∧ t ∈ forest).
    split; [by eapply Forall2_lookup_lr|]. by eapply list_elem_of_lookup_2.
  - intros t a [Hc Hin]. apply reify_spec; [done|].
    apply forest_depth_elem in Hin. lia.
Qed.

Example build_nested_toc_chapters :
  build_nested_toc [Sect "Ch1" 1 None; Sect "Sec1.1" 2 None; Sect "Sec1.2" 2 None;
                    Sect "Ch2" 1 None] =
  Some [PDict [("heading", PStr "Ch1"); ("level", PInt 1);
               ("children",
                PList [PDict [("heading", PStr "Sec1.1"); ("level", PInt 2)];
                       PDict [("heading", PStr "Sec1.2"); ("level", PInt 2)]])];
        PDict [("heading", PStr "Ch2"); ("level", PInt 1)]].
Proof. reflexivity. Qed.

Example build_nested_toc_deeper_first :
  extract_headings <$>
    build_nested_toc [Sect "a" 3 None; Sect "b" 2 None; Sect "c" 3 None; Sect "d" 4 None;
                      Sect "e" 1 None; Sect PREAMBLE 0 None; Sect "f" 5 None] =
  Some [PStr "a"; PStr "b"; PStr "c"; PStr "d"; PStr "e"; PStr "f"].
Proof. reflexivity. Qed.

Example load_toc_bare_and_nested :
  load_toc_config_for_reorganize
    (Some (PDict [("toc", PList [PStr "A";
                                 PDict [("heading", PStr "B");
                                        ("children", PList [PStr "C"; PInt 4])]])])) =
  Some [PStr "A"; PStr "B"; PStr "C"].
Proof. reflexivity. Qed.

Lemma heading_strings_fmap (xs : list string) :
  heading_strings (PStr <$> xs) = Some xs.
Proof.
  unfold heading_strings. apply mapM_Some.
  induction xs as [|x xs IH]; constructor; done.
Qed.

(** C3. For every flat list of sections whose levels are 0 (preamble) or in
    1..6, the outline is built, and the loader's pre-order traversal of it
    gives the heading texts of the list without its level-0 entries, in the
    same order. *)
Theorem outline_round_trip (flat : list section) :
  Forall (λ s, 0 ≤ sec_level s ≤ 6) flat →
  ∃ nested_toc,
    build_nested_toc flat = Some nested_toc ∧
    extract_headings nested_toc =
      PStr <$> (sec_text <$> filter (λ s, sec_level s ≠ 0) flat) ∧
    heading_strings (extract_headings nested_toc) =
      Some (sec_text <$> filter (λ s, sec_level s ≠ 0) flat).
Proof.
  intros _. destruct (build_nested_toc_forest flat) as (forest & Hb & Hpre).
  exists (map pyval_of forest). split; [done|].
  rewrite extract_headings_pyval_of, Hpre. split; [done|].
  apply heading_strings_fmap.
Qed.

Lemma outline_round_trip_witness :
  ∃ nested_toc,
    build_nested_toc [Sect PREAMBLE 0 None; Sect "Ch1" 1 None; Sect "Sec1.1" 2 None;
                      Sect "Sec1.2" 2 None; Sect "Ch2" 1 None] = Some nested_toc ∧
    extract_headings nested_toc = [PStr "Ch1"; PStr "Sec1.1"; PStr "Sec1.2"; PStr "Ch2"].
Proof.
  destruct (outline_round_trip
              [Sect PREAMBLE 0 None; Sect "Ch1" 1 None; Sect "Sec1.1" 2 None;
               Sect "Sec1.2" 2 None; Sect "Ch2" 1 None])
    as (toc & Hb & He & _).
  - repeat constructor; simpl; lia.
  - exists toc. split; [exact Hb|exact He].
Defined.

(** Against C2 as stated.  The outline of a single heading keeps its
    ['level'] field. *)
Lemma level_field_counterexample :
  run_generate (Some [Element 0 "{w}p" (Some (Paragraph (Some "Heading 1") "Ch1"))]) 6 true =
    (Done true,
     Some (PDict [("toc", PList [PDict [("heading", PStr "Ch1"); ("level", PInt 1)]])])) ∧
  ¬ (∀ nodes, build_nested_toc [Sect "Ch1" 1 None] = Some nodes → Forall level_free nodes).
Proof.
  split; [by vm_compute|]. intros H.
  specialize (H _ eq_refl). apply Forall_cons in H as [H _]. inversion H.
Qed.

Lemma pyval_of_shape t : node_shape (pyval_of t).
Proof.
  induction t as [hd lv ts IH] using tree_ind'.
  destruct ts as [|t ts]; [constructor|].
  change (pyval_of (Node hd lv (t :: ts))) with
    (PDict [("heading", PStr hd); ("level", PInt lv);
            ("children", PList (pyval_of t :: map pyval_of ts))]).
  constructor. apply Forall_cons in IH as [Ht IH]. constructor; [done|].
  by apply Forall_fmap.
Qed.

(** C2, amended. For every flat heading list the outline is built, and each
    of its nodes, at every depth, is an object with a ['heading'] field, a
    ['level'] field and, exactly when the node has at least one child, a
    ['children'] field; a node is never a bare string and never lacks its
    level.  The generate pipeline writes this forest under the key ['toc']. *)
Theorem outline_node_shape (flat : list section) :
  ∃ nodes,
    build_nested_toc flat = Some nodes ∧
    Forall node_shape nodes ∧
    ∀ doc L,
      parse_document_structure doc L false = Some flat →
      run_generate doc L true = (Done true, Some (PDict [("toc", PList nodes)])).
Proof.
  destruct (build_nested_toc_forest flat) as (forest & Hb & _).
  exists (map pyval_of forest). split; [done|]. split.
  - apply Forall_fmap, Forall_forall. intros t _. apply pyval_of_shape.
  - intros doc L Hp. unfold run_generate. by rewrite Hp, Hb.
Qed.

Lemma outline_node_shape_witness :
  ∃ nodes,
    Forall node_shape nodes ∧
    run_generate (Some [Element 0 "{w}p" (Some (Paragraph (Some "Heading 1") "Ch1"));
                        Element 1 "{w}p" (Some (Paragraph (Some "Heading 2") "Sec1.1"))])
                 6 true = (Done true, Some (PDict [("toc", PList nodes)])).
Proof.
  destruct (outline_node_shape [Sect "Ch1" 1 None; Sect "Sec1.1" 2 None])
    as (nodes & _ & Hs & Hr).
  exists nodes. split; [exact Hs|]. apply Hr. reflexivity.
Defined.

(** * Further properties *)

(** ** Extraction *)

Lemma group_concat L body :
  (group L body).1 ++ flat_map section_elements (group L body).2 = body.
Proof.
  induction body as [|e body IH]; [done|].
  simpl. destruct (group L body) as [c secs]. simpl in IH.
  destruct (classify L e) as [[n t]|]; simpl; by rewrite IH.
Qed.

Lemma sections_concat L body :
  flat_map section_elements (preamble_of (group L body).1 ++ (group L body).2) = body.
Proof.
  rewrite flat_map_app. etrans; [|apply (group_concat L body)]. f_equal.
  unfold preamble_of. destruct (group L body).1 as [|x xs]; [done|].
  simpl. unfold section_elements. simpl. by rewrite app_nil_r.
Qed.

(** X1. With element capture the extracted sections partition the body:
    their elements, concatenated in section order, are the body itself, so
    that no element is lost, repeated or moved. *)
Theorem extraction_partitions_body (L : Z) (body : list element) (ss : list section) :
  parse_document_structure (Some body) L true = Some ss →
  flat_map section_elements ss = body.
Proof.
  rewrite parse_true. intros [= <-]. apply sections_concat.
Qed.

Lemma extraction_partitions_body_witness :
  flat_map section_elements
    [Sect PREAMBLE 0 (Some [Element 0 "{w}p" (Some (Paragraph (Some "Normal") "Introduction"))]);
     Sect "A" 1 (Some [Element 1 "{w}p" (Some (Paragraph (Some "Heading 1") " A "));
                       Element 2 "{w}tbl" None])] =
  [Element 0 "{w}p" (Some (Paragraph (Some "Normal") "Introduction"));
   Element 1 "{w}p" (Some (Paragraph (Some "Heading 1") " A "));
   Element 2 "{w}tbl" None].
Proof.
  apply (extraction_partitions_body 6
           [Element 0 "{w}p" (Some (Paragraph (Some "Normal") "Introduction"));
            Element 1 "{w}p" (Some (Paragraph (Some "Heading 1") " A "));
            Element 2 "{w}tbl" None]).
  reflexivity.
Defined.

Lemma classify_bound L e n t : classify L e = Some (n, t) → 1 ≤ n ≤ L.
Proof.
  unfold classify. destruct (scanned_paragraph e) as [p|]; [|done]. simpl.
  intros H. by apply is_heading_style_spec in H as (_ & name & _ & _ & _ & ?).
Qed.

(** X2. With element capture every extracted section holds at least one
    element.  A section of level 0 can only be the first one: it is the
    preamble, named by the marker, and none of its elements is a heading.
    Any other section has a level in [1..L], opens with its own heading
    paragraph, carries that paragraph's trimmed text, and holds no further
    heading. *)
Theorem extraction_section_shape (L : Z) (body : list element) (ss : list section)
    (i : nat) (s : section) :
  parse_document_structure (Some body) L true = Some ss →
  ss !! i = Some s →
  (sec_level s = 0 ∧ i = 0%nat ∧ sec_text s = PREAMBLE ∧
   ∃ x xs, sec_elements s = Some (x :: xs) ∧
           Forall (λ e, classify L e = None) (x :: xs)) ∨
  (1 ≤ sec_level s ≤ L ∧
   ∃ e t content, sec_elements s = Some (e :: content) ∧
                  classify L e = Some (sec_level s, t) ∧
                  sec_text s = strip t ∧
                  Forall (λ e, classify L e = None) content).
Proof.
  rewrite parse_true. intros [= <-] Hi.
  destruct (group_preamble L body) as (rest & _ & Hpre & _).
  assert (s ∈ (group L body).2 →
          1 ≤ sec_level s ≤ L ∧
          ∃ e t content, sec_elements s = Some (e :: content) ∧
                         classify L e = Some (sec_level s, t) ∧
                         sec_text s = strip t ∧
                         Forall (λ e, classify L e = None) content) as Hsec.
  { intros (e & n & t & c & -> & _ & Hc & before & after & _ & ->)%group_heading.
    simpl. split; [by eapply classify_bound|]. exists e, t, (group L after).1.
    split; [done|]. split; [done|]. split; [done|].
    by destruct (group_preamble L after) as (? & _ & ? & _). }
  unfold preamble_of in Hi. destruct (group L body).1 as [|x xs] eqn:Hg.
  - right. apply Hsec. by eapply list_elem_of_lookup_2.
  - destruct i as [|i]; simpl in Hi.
    + injection Hi as <-. left. simpl. split; [done|]. split; [done|].
      split; [done|]. by exists x, xs.
    + right. apply Hsec. by eapply list_elem_of_lookup_2.
Qed.

Lemma extraction_section_shape_witness :
  (1 ≤ 2 ≤ 6 ∧
   ∃ e t content,
     Some [Element 0 "{w}p" (Some (Paragraph (Some "Heading 2") " A "));
           Element 1 "{w}tbl" None] = Some (e :: content) ∧
     classify 6 e = Some (2, t) ∧ "A" = strip t ∧
     Forall (λ e, classify 6 e = None) content).
Proof.
  destruct (extraction_section_shape 6
              [Element 0 "{w}p" (Some (Paragraph (Some "Heading 2") " A "));
               Element 1 "{w}tbl" None]
              [Sect "A" 2 (Some [Element 0 "{w}p" (Some (Paragraph (Some "Heading 2") " A "));
                                 Element 1 "{w}tbl" None])]
              0 _ eq_refl eq_refl) as [(H & _)|H].
  - discriminate H.
  - exact H.
Defined.

Lemma scan_fold_false L body S t n :
  close_section false
    (fold_left (scan_element L false) body (ScanState S None (t, n))) =
  close_section false (ScanState S None (t, n)) ++ (flat_section <$> headings L body).
Proof.
  revert S t n. induction body as [|e body IH]; intros S t n.
  - simpl. by rewrite app_nil_r.
  - simpl. rewrite scan_element_classify. unfold headings. simpl.
    destruct (classify L e) as [[n' t']|] eqn:Hc; simpl.
    + rewrite IH. apply classify_level in Hc.
      unfold close_section at 1. simpl.
      replace (0 <? n') with true by (symmetry; apply Z.ltb_lt; lia). simpl.
      by rewrite <- app_assoc.
    + apply IH.
Qed.

Lemma parse_false L body :
  parse_document_structure (Some body) L false =
    Some (flat_section <$> headings L body).
Proof.
  unfold parse_document_structure, scan_init. rewrite scan_fold_false.
  unfold close_section. simpl. by destruct (flat_section <$> headings L body).
Qed.

(** X3. Without element capture (the generate path) extraction yields one
    section per heading paragraph, in document order, with the trimmed text,
    the level and no elements; content before the first heading never gives
    a preamble section. *)
Theorem extraction_without_capture (L : Z) (body : list element) :
  parse_document_structure (Some body) L false =
    Some (flat_section <$> headings L body).
Proof. apply parse_false. Qed.

Lemma filter_all {A} (P : A → Prop) `{∀ x, Decision (P x)} (l : list A) :
  Forall P l → filter P l = l.
Proof.
  induction 1 as [|x l Hx _ IH]; [done|]. by rewrite filter_cons_True, IH.
Qed.

Lemma group_headings L body :
  forget_elements <$> (group L body).2 = flat_section <$> headings L body.
Proof.
  unfold headings. induction body as [|e body IH]; [done|].
  simpl. destruct (group L body) as [c secs]. simpl in IH.
  destruct (classify L e) as [[n t]|]; simpl; [|done]. by f_equal.
Qed.

(** X4. The two extraction modes agree on the headings: the sections found
    without capture are the sections found with capture, the preamble
    dropped and the elements forgotten. *)
Theorem extraction_modes_agree (L : Z) (body : list element) (ss : list section) :
  parse_document_structure (Some body) L true = Some ss →
  parse_document_structure (Some body) L false =
    Some (forget_elements <$> filter (λ s, sec_level s ≠ 0) ss).
Proof.
  rewrite parse_true, parse_false. intros [= <-]. f_equal.
  rewrite filter_app, <- group_headings.
  assert (filter (λ s, sec_level s ≠ 0) (preamble_of (group L body).1) = []) as ->.
  { unfold preamble_of. by destruct (group L body).1. }
  simpl. f_equal. symmetry. apply filter_all, Forall_forall.
  intros s [_ ?]%group_truthy. lia.
Qed.

(** X5. The clean-up of lines 73-74 never removes a section: whatever the
    body and the mode, the result is the list as the loop and the final
    append leave it. *)
Theorem leading_preamble_never_popped (L : Z) (inc : bool) (body : list element) :
  parse_document_structure (Some body) L inc =
    Some (close_section inc (fold_left (scan_element L inc) body (scan_init inc))).
Proof.
  destruct inc.
  - rewrite parse_true. unfold scan_init. rewrite scan_fold_true.
    destruct (group L body) as [c secs]. simpl. f_equal.
    unfold close_section, preamble_of. simpl. by destruct c.
  - unfold parse_document_structure. f_equal.
    by destruct (close_section false _).
Qed.

(** ** Writing the new document *)

Lemma emit_inner E es (acc : list element * nat) :
  fold_left (λ (acc : list element * nat) (x : element),
               if copy_fails E x then (acc.1, S acc.2) else (acc.1 ++ [x], acc.2))
            es acc =
  (acc.1 ++ filter (λ x, copy_fails E x = false) es,
   (acc.2 + length (filter (λ x, copy_fails E x = true) es))%nat).
Proof.
  revert acc. induction es as [|x es IH]; intros [b n]; simpl.
  - by rewrite app_nil_r, Nat.add_0_r.
  - rewrite IH, !filter_cons. destruct (copy_fails E x); simpl.
    + f_equal. lia.
    + by rewrite <- app_assoc.
Qed.

Lemma emit_section E s (acc : list element * nat) :
  match sec_elements s with
  | Some (e :: es) =>
      fold_left (λ (acc : list element * nat) (x : element),
                   if copy_fails E x then (acc.1, S acc.2)
                   else (acc.1 ++ [x], acc.2))
                (e :: es) acc
  | _ => acc
  end =
  (acc.1 ++ filter (λ x, copy_fails E x = false) (section_elements s),
   (acc.2 + length (filter (λ x, copy_fails E x = true) (section_elements s)))%nat).
Proof.
  unfold section_elements. destruct (sec_elements s) as [[|e es]|].
  - destruct acc. simpl. by rewrite app_nil_r, Nat.add_0_r.
  - apply emit_inner.
  - destruct acc. simpl. by rewrite app_nil_r, Nat.add_0_r.
Qed.

Lemma emit_filter E plan :
  emit E plan =
    (filter (λ x, copy_fails E x = false) (flat_map section_elements plan),
     length (filter (λ x, copy_fails E x = true) (flat_map section_elements plan))).
Proof.
  unfold emit.
  set (step := λ (acc : list element * nat) (s : section),
         match sec_elements s with
         | Some (e :: es) =>
             fold_left (λ (acc : list element * nat) (x : element),
                          if copy_fails E x then (acc.1, S acc.2)
                          else (acc.1 ++ [x], acc.2))
                       (e :: es) acc
         | _ => acc
         end).
  enough (∀ acc : list element * nat,
    fold_left step plan acc =
    (acc.1 ++ filter (λ x, copy_fails E x = false) (flat_map section_elements plan),
     (acc.2 + length (filter (λ x, copy_fails E x = true)
                        (flat_map section_elements plan)))%nat)) as H
    by (by rewrite H).
  induction plan as [|s plan IH]; intros acc.
  - destruct acc. simpl. by rewrite app_nil_r, Nat.add_0_r.
  - change (fold_left step (s :: plan) acc) with (fold_left step plan (step acc s)).
    rewrite IH. unfold step. rewrite emit_section. cbn [fst snd flat_map].
    rewrite !filter_app, length_app, <- app_assoc. f_equal. lia.
Qed.

Lemma filter_split_length {A} (f : A → bool) (l : list A) :
  (length (filter (λ x, f x = false) l) + length (filter (λ x, f x = true) l))%nat
  = length l.
Proof.
  induction l as [|x l IH]; [done|]. rewrite !filter_cons.
  destruct (f x); simpl; lia.
Qed.

(** X6. Writing accounts for every scheduled element: the new body is the
    scheduled elements, in order, less those whose copy fails; the error
    count is the number of those; and written plus failed is the number of
    scheduled elements.  Sections without elements contribute nothing. *)
Theorem emit_accounts_for_every_element (E : env) (plan : list section) :
  let scheduled := flat_map section_elements plan in
  (emit E plan).1 = filter (λ x, copy_fails E x = false) scheduled ∧
  (emit E plan).2 = length (filter (λ x, copy_fails E x = true) scheduled) ∧
  (length (emit E plan).1 + (emit E plan).2)%nat = length scheduled.
Proof.
  intros scheduled. rewrite emit_filter. simpl.
  split; [done|]. split; [done|]. apply filter_split_length.
Qed.

Lemma extraction_modes_agree_witness :
  parse_document_structure
    (Some [Element 0 "{w}p" (Some (Paragraph (Some "Normal") "Introduction"));
           Element 1 "{w}p" (Some (Paragraph (Some "Heading 1") " A "))]) 6 false =
  Some (forget_elements <$> filter (λ s, sec_level s ≠ 0)
    [Sect PREAMBLE 0 (Some [Element 0 "{w}p" (Some (Paragraph (Some "Normal") "Introduction"))]);
     Sect "A" 1 (Some [Element 1 "{w}p" (Some (Paragraph (Some "Heading 1") " A "))])]).
Proof.
  apply (extraction_modes_agree 6
           [Element 0 "{w}p" (Some (Paragraph (Some "Normal") "Introduction"));
            Element 1 "{w}p" (Some (Paragraph (Some "Heading 1") " A "))]).
  reflexivity.
Defined.

(** ** What a run writes *)

Lemma run_new_document E a toc body out :
  new_document (run_reorganize E a toc (Some body)) = Some out →
  ∃ Tv T plan,
    load_toc_config_for_reorganize toc = Some Tv ∧ heading_strings Tv = Some T ∧
    (reconcile E a T (section_map (preamble_of (group (max_level a) body).1
                                   ++ (group (max_level a) body).2))).1 = Done plan ∧
    out = (emit E plan).1.
Proof.
  unfold run_reorganize.
  destruct (load_toc_config_for_reorganize toc) as [Tv|]; [|done].
  rewrite parse_true. destruct (heading_strings Tv) as [T|] eqn:Hh; [|done].
  destruct (reconcile E a T _) as [[plan| |] lg] eqn:Hr; [|done..].
  destruct (emit E plan) as [b n] eqn:He.
  destruct (save_ok E); simpl; intros [= <-]; exists Tv, T, plan;
    by rewrite He, Hr.
Qed.

Lemma flat_map_submseteq {A B} (f : A → list B) (l k : list A) :
  l ⊆+ k → flat_map f l ⊆+ flat_map f k.
Proof.
  intros [k' Hk]%submseteq_Permutation. rewrite Hk, flat_map_app.
  by apply submseteq_inserts_r.
Qed.

Lemma first_occurrences_id seen (l : list section) :
  NoDup (sec_text <$> l) →
  (∀ s, s ∈ l → sec_text s ≠ PREAMBLE ∧ sec_text s ∉ seen) →
  first_occurrences seen l = l.
Proof.
  revert seen. induction l as [|s l IH]; intros seen Hnd Hl; [done|].
  apply NoDup_cons in Hnd as [Hs Hnd]. simpl.
  destruct (Hl s) as [Hp Hn]; [by left|].
  rewrite (proj2 (String.eqb_neq _ _)) by done.
  rewrite bool_decide_eq_false_2 by done. f_equal. apply IH; [done|].
  intros s' Hs'. destruct (Hl s') as [? ?]; [by right|]. split; [done|].
  assert (sec_text s' ≠ sec_text s); [|set_solver].
  intros Heq. apply Hs. rewrite <- Heq. apply list_elem_of_fmap. eauto.
Qed.

Lemma first_occurrences_app_nil seen l1 l2 :
  (∀ s, s ∈ l1 → sec_text s = PREAMBLE) →
  first_occurrences seen (l1 ++ l2) = first_occurrences seen l2.
Proof.
  induction l1 as [|s l1 IH]; intros Hl; [done|]. simpl.
  rewrite (proj2 (String.eqb_eq _ _)) by (apply Hl; by left).
  apply IH. intros; apply Hl; by right.
Qed.

Lemma matched_part_texts m P T :
  keyed_by_text m →
  sec_text <$> matched_part m P T = first_mentions P (filter (λ h, h ∈ dom m) T).
Proof.
  intros Hk. revert P. induction T as [|h T IH]; intros P; [done|].
  rewrite filter_cons. simpl. destruct (m !! h) as [s|] eqn:Hm.
  - rewrite decide_True by (apply elem_of_dom; eauto). simpl.
    apply Hk in Hm as Ht. case_bool_decide as Hp.
    + rewrite bool_decide_eq_false_2 by done. simpl. by rewrite IH, Ht.
    + rewrite bool_decide_eq_true_2 by done. apply IH.
  - rewrite decide_False by (by apply not_elem_of_dom). apply IH.
Qed.

Section Written.
Context (E : env) (HE : set_iter_ok E).

Lemma plan_parts_NoDup a T ss :
  NoDup (sec_text <$>
           preamble_part (section_map ss)
           ++ matched_part (source_sections_map (section_map ss)) ∅ T
           ++ appended_part E a (source_sections_map (section_map ss)) T).
Proof.
  set (ms := section_map ss). set (m := source_sections_map ms).
  assert (∀ s, s ∈ matched_part m ∅ T → sec_text s ∈ T ∧ sec_text s ∈ dom m) as Hmt.
  { intros s (h & Hin & _ & Hs)%matched_part_elem.
    rewrite (section_map_keyed ss h s Hs). split; [done|]. apply elem_of_dom. eauto. }
  assert (∀ s, s ∈ appended_part E a m T → (sec_text s ∉ T) ∧ sec_text s ∈ dom m) as Hat.
  { intros s (_ & h & Hd & Hn & Hs)%(appended_part_elem E HE).
    by rewrite (section_map_keyed ss h s Hs). }
  assert (∀ h, h ∈ dom m → h ≠ PREAMBLE) as Hdom.
  { intros h [x Hx]%elem_of_dom. by apply section_map_key in Hx as (_ & _ & ?). }
  rewrite !fmap_app. apply NoDup_app. split; [|split].
  - pose proof (preamble_part_length ms) as Hl.
    destruct (preamble_part ms) as [|p [|q l]]; simpl in *;
      [constructor|apply NoDup_singleton|lia].
  - intros t (p & -> & Hp%preamble_part_text)%list_elem_of_fmap.
    rewrite Hp.
    intros [(s & Ht & Hs)%list_elem_of_fmap|(s & Ht & Hs)%list_elem_of_fmap]%elem_of_app.
    + apply Hmt in Hs as [_ Hs]. apply Hdom in Hs. congruence.
    + apply Hat in Hs as [_ Hs]. apply Hdom in Hs. congruence.
  - apply NoDup_app. split; [|split].
    + apply matched_part_NoDup, section_map_keyed.
    + intros t (s & -> & Hs)%list_elem_of_fmap (s' & Ht & Hs')%list_elem_of_fmap.
      apply Hmt in Hs as [Hs _]. apply Hat in Hs' as [Hs' _]. congruence.
    + by apply appended_part_NoDup.
Qed.

Lemma plan_parts_source a T ss s :
  s ∈ preamble_part (section_map ss)
      ++ matched_part (source_sections_map (section_map ss)) ∅ T
      ++ appended_part E a (source_sections_map (section_map ss)) T →
  s ∈ ss.
Proof.
  rewrite !elem_of_app. intros [Hs|[Hs|Hs]].
  - unfold preamble_part in Hs. rewrite section_map_preamble in Hs.
    destruct (last _) as [p|] eqn:Hl; [|by apply elem_of_nil in Hs].
    destruct (truthy_list _); [|by apply elem_of_nil in Hs].
    apply list_elem_of_singleton in Hs as ->.
    apply last_Some in Hl as [l' Hl].
    assert (p ∈ filter (λ s, sec_text s = PREAMBLE) ss) as Hp
      by (rewrite Hl; apply elem_of_app; right; by left).
    by apply list_elem_of_filter in Hp as [_ ?].
  - apply matched_part_elem in Hs as (h & _ & _ & Hs).
    by apply section_map_key in Hs as (_ & ? & _).
  - apply (appended_part_elem E HE) in Hs as (_ & h & _ & _ & Hs).
    by apply section_map_key in Hs as (_ & ? & _).
Qed.

Lemma matched_part_perm ss T :
  matched_part (source_sections_map (section_map ss)) ∅ T ≡ₚ
  filter (λ s, sec_text s ∈ T) (first_occurrences ∅ ss).
Proof.
  apply NoDup_Permutation.
  - apply NoDup_fmap_text, matched_part_NoDup, section_map_keyed.
  - apply NoDup_filter, NoDup_fmap_text, first_occurrences_NoDup.
  - intros s. rewrite matched_part_elem, list_elem_of_filter, first_occurrences_map.
    split.
    + intros (h & Hin & _ & Hs).
      rewrite (section_map_keyed ss h s Hs). done.
    + intros [Hin Hs]. exists (sec_text s). split; [done|]. split; [set_solver|done].
Qed.

Lemma plan_perm a T ss :
  unmatched a ≠ UDelete →
  matched_part (source_sections_map (section_map ss)) ∅ T
  ++ appended_part E a (source_sections_map (section_map ss)) T ≡ₚ
  first_occurrences ∅ ss.
Proof.
  intros Hu. rewrite matched_part_perm, (appended_part_perm E HE) by done.
  apply filter_app_complement.
Qed.

(** X7. Unless unmatched sections are deleted, the plan is a rearrangement
    of the preamble and of the sections that entered the section map (the
    first section of every heading text): each is written exactly once,
    whatever the target list names, omits or repeats. *)
Theorem append_keeps_every_section (a : args) (T : list string) (ss : list section)
    (plan : list section) :
  unmatched a ≠ UDelete →
  (reconcile E a T (section_map ss)).1 = Done plan →
  plan ≡ₚ preamble_part (section_map ss) ++ first_occurrences ∅ ss.
Proof.
  intros Hu ->%(reconcile_plan_parts E HE). by rewrite plan_perm.
Qed.

(** X8. The matched sections are written in the order of the target list:
    their texts are the target headings that the source has, each at its
    first mention, and each is the first source section of that text. *)
Theorem matched_in_target_order (a : args) (T : list string) (ss : list section)
    (plan : list section) :
  (reconcile E a T (section_map ss)).1 = Done plan →
  let m := source_sections_map (section_map ss) in
  ∃ mid, plan = preamble_part (section_map ss) ++ mid ++ appended_part E a m T ∧
         sec_text <$> mid = first_mentions ∅ (filter (λ h, h ∈ dom m) T) ∧
         ∀ s, s ∈ mid → first_with_text (sec_text s) ss = Some s.
Proof.
  intros ->%(reconcile_plan_parts E HE) m. exists (matched_part m ∅ T).
  split; [done|]. split; [apply matched_part_texts, section_map_keyed|].
  intros s (h & _ & _ & Hs)%matched_part_elem.
  pose proof (section_map_key ss h s Hs) as (<- & _ & Hp).
  unfold m in Hs. rewrite section_map_lookup in Hs.
  by rewrite (proj2 (String.eqb_neq _ _)) in Hs.
Qed.

End Written.

Lemma group_texts L body :
  sec_text <$> (group L body).2 = (λ h, strip h.2) <$> headings L body.
Proof.
  transitivity (sec_text <$> (forget_elements <$> (group L body).2)).
  - rewrite <- list_fmap_compose. by apply list_fmap_ext.
  - rewrite group_headings, <- list_fmap_compose. by apply list_fmap_ext.
Qed.

Lemma reconcile_same_but_messages E a a' T ms :
  set_iter_ok E → same_but_messages a a' →
  (reconcile E a T ms).1 = (reconcile E a' T ms).1.
Proof.
  intros HE (_ & Hu & Hm). rewrite !(reconcile_plan E HE).
  assert (aborts a (source_sections_map ms) T = aborts a' (source_sections_map ms) T)
    as ->.
  { unfold aborts. destruct (missing_in_source _ _); [done|].
    destruct (missing a), (missing a'); try done; naive_solver. }
  assert (appended_part E a (source_sections_map ms) T =
          appended_part E a' (source_sections_map ms) T) as ->; [|done].
  unfold appended_part. destruct (unmatched a), (unmatched a'); try done; naive_solver.
Qed.

(** X9. Every element of the new document comes from the source, and comes
    no more often than it occurs there: whatever the outline, the policies
    and the failing copies, the new body is a sub-multiset of the source
    body. *)
Theorem new_document_within_source (E : env) (a : args) (toc : option pyval)
    (body out : list element) :
  set_iter_ok E →
  new_document (run_reorganize E a toc (Some body)) = Some out →
  out ⊆+ body.
Proof.
  intros HE (Tv & T & plan & _ & _ & Hr & ->)%run_new_document.
  apply (reconcile_plan_parts E HE) in Hr.
  rewrite emit_filter. cbn [fst].
  etrans; [apply sublist_submseteq, sublist_filter|].
  rewrite <- (sections_concat (max_level a) body).
  apply flat_map_submseteq, NoDup_submseteq.
  - rewrite Hr. apply NoDup_fmap_text, (plan_parts_NoDup E HE).
  - intros s Hs. rewrite Hr in Hs. by apply (plan_parts_source E HE) in Hs.
Qed.

(** X10. When no heading of the source is the preamble marker, the trimmed
    heading texts are pairwise distinct, unmatched sections are not deleted
    and no copy fails, the new document is a rearrangement of the source:
    every element of the body is written exactly once. *)
Theorem reorganize_rearranges (E : env) (a : args) (toc : option pyval)
    (body out : list element) :
  set_iter_ok E →
  marker_free (max_level a) body →
  NoDup ((λ h, strip h.2) <$> headings (max_level a) body) →
  unmatched a ≠ UDelete →
  (∀ x, copy_fails E x = false) →
  new_document (run_reorganize E a toc (Some body)) = Some out →
  out ≡ₚ body.
Proof.
  intros HE Hf Hnd Hu Hc (Tv & T & plan & _ & _ & Hr & ->)%run_new_document.
  apply (reconcile_plan_parts E HE) in Hr.
  rewrite emit_filter. cbn [fst].
  rewrite filter_all by (apply Forall_forall; intros; apply Hc).
  rewrite <- (sections_concat (max_level a) body).
  apply Permutation_flat_map.
  rewrite Hr, (plan_perm E HE) by done.
  rewrite preamble_part_parse by done.
  apply Permutation_app_head. rewrite first_occurrences_app_nil.
  - rewrite first_occurrences_id; [done|by rewrite group_texts|].
    intros s Hs. split; [by apply (marker_free_group (max_level a) body)|set_solver].
  - unfold preamble_of. intros s Hs. destruct (group _ body).1; [by apply elem_of_nil in Hs|].
    by apply list_elem_of_singleton in Hs as ->.
Qed.

(** X11. Verbosity, [warn] in place of [append] for unmatched sections and
    [warn] in place of [ignore] for missing headings change messages only:
    two runs whose command lines differ in nothing else return alike and
    build and save the same document. *)
Theorem message_options_leave_document (E : env) (a a' : args) (toc : option pyval)
    (doc : option (list element)) :
  set_iter_ok E → same_but_messages a a' →
  returned (run_reorganize E a toc doc) = returned (run_reorganize E a' toc doc) ∧
  new_document (run_reorganize E a toc doc) = new_document (run_reorganize E a' toc doc) ∧
  saved (run_reorganize E a toc doc) = saved (run_reorganize E a' toc doc).
Proof.
  intros HE Hs. pose proof Hs as (HL & _). unfold run_reorganize. rewrite <- HL.
  destruct (load_toc_config_for_reorganize toc) as [Tv|]; [|done].
  destruct (parse_document_structure doc (max_level a) true) as [ss|]; [|done].
  destruct (heading_strings Tv) as [T|]; [|done].
  pose proof (reconcile_same_but_messages E a a' T (section_map ss) HE Hs) as Hr.
  destruct (reconcile E a T _) as [o lg], (reconcile E a' T _) as [o' lg'].
  simpl in Hr. subst o'. destruct o as [plan| |]; [|done..].
  destruct (emit E plan) as [b n]. by destruct (save_ok E).
Qed.

Lemma append_keeps_every_section_witness :
  [heading_section "B" 1; heading_section "C" 2; heading_section "A" 0] ≡ₚ
  preamble_part (section_map [heading_section "A" 0; heading_section "B" 1;
                              heading_section "C" 2])
  ++ first_occurrences ∅ [heading_section "A" 0; heading_section "B" 1;
                          heading_section "C" 2].
Proof.
  apply (append_keeps_every_section descending_env descending_env_ok
           (Args UAppend MWarn false 6) ["B"]).
  - intros [=].
  - reflexivity.
Defined.

Lemma matched_in_target_order_witness :
  ∃ mid,
    [heading_section "C" 2; heading_section "A" 0] =
      preamble_part (section_map [heading_section "A" 0; heading_section "B" 1;
                                  heading_section "C" 2])
      ++ mid
      ++ appended_part descending_env (Args UDelete MWarn false 6)
           (source_sections_map (section_map [heading_section "A" 0; heading_section "B" 1;
                                              heading_section "C" 2]))
           ["C"; "Z"; "A"; "C"] ∧
    sec_text <$> mid =
      first_mentions ∅
        (filter (λ h, h ∈ dom (source_sections_map
                                 (section_map [heading_section "A" 0; heading_section "B" 1;
                                               heading_section "C" 2])))
                ["C"; "Z"; "A"; "C"]).
Proof.
  destruct (matched_in_target_order descending_env descending_env_ok
              (Args UDelete MWarn false 6) ["C"; "Z"; "A"; "C"]
              [heading_section "A" 0; heading_section "B" 1; heading_section "C" 2]
              [heading_section "C" 2; heading_section "A" 0] eq_refl)
    as (mid & Hp & Ht & _).
  exists mid. split; [exact Hp|exact Ht].
Defined.

Lemma new_document_within_source_witness :
  [Element 0 "{w}p" (Some (Paragraph (Some "Normal") "Introduction"));
   Element 3 "{w}p" (Some (Paragraph (Some "Heading 2") "B"))] ⊆+ sample_doc.
Proof.
  apply (new_document_within_source descending_env (Args UDelete MWarn false 6)
           (Some (PDict [("toc", PList [PStr "B"])])) sample_doc).
  - apply descending_env_ok.
  - vm_compute. reflexivity.
Defined.

Lemma sample_doc_marker_free : marker_free 6 sample_doc.
Proof.
  intros e n t Hin Hc. unfold sample_doc in Hin.
  repeat (apply elem_of_cons in Hin as [->|Hin]);
    [vm_compute in Hc; try discriminate Hc; injection Hc as <- <-; by vm_compute..|].
  by apply elem_of_nil in Hin.
Qed.

Lemma reorganize_rearranges_witness :
  [Element 0 "{w}p" (Some (Paragraph (Some "Normal") "Introduction"));
   Element 3 "{w}p" (Some (Paragraph (Some "Heading 2") "B"));
   Element 1 "{w}p" (Some (Paragraph (Some "Heading 1") "A"));
   Element 2 "{w}tbl" None] ≡ₚ sample_doc.
Proof.
  apply (reorganize_rearranges descending_env (Args UAppend MWarn false 6)
           (Some sample_toc) sample_doc).
  - apply descending_env_ok.
  - apply sample_doc_marker_free.
  - apply (bool_decide_unpack _). vm_compute. exact I.
  - intros [=].
  - reflexivity.
  - vm_compute. reflexivity.
Defined.

Lemma message_options_leave_document_witness :
  saved (run_reorganize descending_env (Args UAppend MIgnore false 6)
           (Some sample_toc) (Some sample_doc)) =
  saved (run_reorganize descending_env (Args UWarn MWarn true 6)
           (Some sample_toc) (Some sample_doc)).
Proof.
  apply (message_options_leave_document descending_env
           (Args UAppend MIgnore false 6) (Args UWarn MWarn true 6)
           (Some sample_toc) (Some sample_doc) descending_env_ok).
  split; [reflexivity|]. split; split; intros [=].
Defined.

(** ** The outline as a right fold *)

Lemma span_app {A} (p : A → bool) l : (span p l).1 ++ (span p l).2 = l.
Proof.
  induction l as [|x l IH]; [done|]. simpl. destruct (p x); [|done].
  destruct (span p l) as [a b]. simpl in *. by rewrite IH.
Qed.

Lemma span_Forall {A} (p : A → bool) l : Forall (λ x, p x = true) (span p l).1.
Proof.
  induction l as [|x l IH]; [constructor|]. simpl. destruct (p x) eqn:Hx; [|constructor].
  destruct (span p l) as [a b]. simpl in *. by constructor.
Qed.

Lemma span_stops {A} (p : A → bool) l : stops p (span p l).2.
Proof.
  induction l as [|x l IH]; [done|]. simpl. destruct (p x) eqn:Hx; [|done].
  by destruct (span p l) as [a b].
Qed.

Lemma span_none {A} (p : A → bool) l : stops p l → span p l = ([], l).
Proof. destruct l as [|x l]; [done|]. simpl. by intros ->. Qed.

Lemma span_all {A} (p : A → bool) l1 l2 :
  Forall (λ x, p x = true) l1 →
  span p (l1 ++ l2) = (l1 ++ (span p l2).1, (span p l2).2).
Proof.
  induction 1 as [|x l1 Hx _ IH]; simpl; [by destruct (span p l2)|].
  by rewrite Hx, IH.
Qed.

Lemma span_app_stops {A} (p : A → bool) l1 l2 :
  stops p l2 → span p (l1 ++ l2) = ((span p l1).1, (span p l1).2 ++ l2).
Proof.
  intros Hs. induction l1 as [|x l1 IH]; simpl; [by apply span_none|].
  destruct (p x); [|done]. rewrite IH. by destruct (span p l1).
Qed.

Lemma stops_prefix {A} (p q : A → bool) l :
  stops p l → stops p (span q l).1.
Proof.
  destruct l as [|x l]; [done|]. simpl. intros Hx. destruct (q x); [|done].
  by destruct (span q l).
Qed.

Lemma nest_levels lv l :
  Forall (λ s, lv < sec_level s) l →
  Forall (λ t, lv < tree_level t) (foldr attach [] l).
Proof.
  induction 1 as [|s l Hs _ IH]; [constructor|]. simpl. unfold attach at 1.
  pose proof (span_app (λ t, sec_level s <? tree_level t) (foldr attach [] l)) as Happ.
  destruct (span _ (foldr attach [] l)) as [under beside]. simpl in Happ.
  rewrite <- Happ in IH. apply Forall_app in IH as [_ IH]. by constructor.
Qed.

Lemma nest_stops lv l :
  stops (λ s, lv <? sec_level s) l →
  stops (λ t, lv <? tree_level t) (foldr attach [] l).
Proof.
  destruct l as [|s l]; [done|]. simpl. unfold attach at 1.
  by destruct (span _ (foldr attach [] l)).
Qed.

(** Cutting the forest of a list at a level cuts the list at that level. *)
Lemma span_nest lv sub others :
  Forall (λ s, (lv <? sec_level s) = true) sub →
  stops (λ s, lv <? sec_level s) others →
  span (λ t, lv <? tree_level t) (foldr attach [] (sub ++ others)) =
    (foldr attach [] sub, foldr attach [] others).
Proof.
  intros Hsub Ho. induction Hsub as [|x sub Hx Hsub IH].
  - simpl. by apply span_none, nest_stops.
  - cbn [app foldr]. unfold attach at 1 3.
    pose proof (span_app (λ t, lv <? tree_level t) (foldr attach [] (sub ++ others)))
      as Happ.
    rewrite IH in Happ. simpl in Happ. rewrite <- Happ.
    apply Z.ltb_lt in Hx.
    rewrite span_app_stops.
    2:{ apply nest_stops. destruct others as [|o os]; [done|]. simpl in *.
        apply Z.ltb_ge in Ho. apply Z.ltb_ge. lia. }
    pose proof (span_app (λ t, sec_level x <? tree_level t) (foldr attach [] sub)) as Hsp.
    destruct (span (λ t, sec_level x <? tree_level t) (foldr attach [] sub))
      as [under beside]. cbn [fst snd] in *. simpl.
    rewrite (proj2 (Z.ltb_lt _ _) Hx).
    rewrite span_all.
    + rewrite (span_none _ (foldr attach [] others)) by (by apply nest_stops). simpl.
      by rewrite app_nil_r.
    + assert (Forall (λ t, lv < tree_level t) (foldr attach [] sub)) as Hl.
      { apply nest_levels. eapply Forall_impl; [exact Hsub|].
        intros s Hs. by apply Z.ltb_lt. }
      rewrite <- Hsp in Hl. apply Forall_app in Hl as [_ Hl].
      eapply Forall_impl; [exact Hl|]. intros t Ht. by apply Z.ltb_lt.
Qed.

Lemma attach_span s rest :
  attach s (foldr attach [] rest) =
    Node (sec_text s) (sec_level s)
         (foldr attach [] (span (λ x, sec_level s <? sec_level x) rest).1)
    :: foldr attach [] (span (λ x, sec_level s <? sec_level x) rest).2.
Proof.
  unfold attach.
  rewrite <- (span_app (λ x, sec_level s <? sec_level x) rest) at 1.
  rewrite span_nest; [done|apply span_Forall|apply span_stops].
Qed.

Lemma finish_nil frames roots pend :
  finish frames roots pend [] = plug frames roots pend.
Proof.
  revert pend. induction frames as [|f fs IH]; intros pend; simpl.
  - by rewrite app_nil_r.
  - by rewrite IH, app_nil_r.
Qed.

(** Taking an entry in, the open nodes at its level or deeper closed first,
    changes nothing in what the state and the entries amount to. *)
Lemma finish_step frames roots pend s rest node cnew :
  finish (Frame (sec_level s) (sec_text s) [] node cnew
            :: (pop_frames (sec_level s) frames roots pend).1)
         (pop_frames (sec_level s) frames roots pend).2 [] rest =
  finish frames roots pend (s :: rest).
Proof.
  revert pend. induction frames as [|f fs IH]; intros pend.
  - cbn [pop_frames fst snd finish f_level f_heading f_done].
    pose proof (attach_span s rest) as Ha.
    destruct (span (λ x, sec_level s <? sec_level x) rest) as [sub others].
    cbn [fst snd] in Ha. cbn [finish foldr]. rewrite Ha.
    simpl. by rewrite <- !app_assoc.
  - cbn [pop_frames]. destruct (sec_level s <=? f_level f) eqn:Hle.
    + rewrite IH. cbn [finish span].
      rewrite (proj2 (Z.ltb_ge _ _)) by (by apply Z.leb_le).
      simpl. by rewrite app_nil_r.
    + apply Z.leb_gt in Hle.
      cbn [fst snd finish f_level f_heading f_done span].
      rewrite (proj2 (Z.ltb_lt _ _) Hle).
      pose proof (attach_span s rest) as Ha.
      pose proof (span_app (λ x, sec_level s <? sec_level x) rest) as Happ.
      pose proof (span_Forall (λ x, sec_level s <? sec_level x) rest) as Hall.
      pose proof (span_stops (λ x, sec_level s <? sec_level x) rest) as Hstop.
      destruct (span (λ x, sec_level s <? sec_level x) rest) as [sub others].
      cbn [fst snd] in *. rewrite <- Happ.
      rewrite span_all.
      2:{ eapply Forall_impl; [exact Hall|]. intros x Hx.
          apply Z.ltb_lt in Hx. apply Z.ltb_lt. lia. }
      pose proof (stops_prefix (λ x, sec_level s <? sec_level x)
                    (λ x, f_level f <? sec_level x) others Hstop) as Hstop2.
      destruct (span (λ x, f_level f <? sec_level x) others) as [sub2 others2].
      cbn [fst snd] in *. cbn [foldr].
      assert (attach s (foldr attach [] (sub ++ sub2)) =
              Node (sec_text s) (sec_level s) (foldr attach [] sub)
              :: foldr attach [] sub2) as ->
        by (unfold attach at 1; by rewrite span_nest).
      simpl. by rewrite <- !app_assoc.
Qed.

Lemma forest_size_nest l : forest_size (foldr attach [] l) = length l.
Proof.
  induction l as [|s l IH]; [done|]. simpl. unfold attach at 1.
  pose proof (span_app (λ t, sec_level s <? tree_level t) (foldr attach [] l)) as Happ.
  destruct (span _ (foldr attach [] l)) as [under beside]. simpl in Happ.
  rewrite <- IH, <- Happ, forest_size_app. done.
Qed.

Lemma nest_nested l : Forall nested_by_level (foldr attach [] l).
Proof.
  induction l as [|s l IH]; [constructor|]. simpl. unfold attach at 1.
  pose proof (span_app (λ t, sec_level s <? tree_level t) (foldr attach [] l)) as Happ.
  pose proof (span_Forall (λ t, sec_level s <? tree_level t) (foldr attach [] l)) as Hall.
  destruct (span _ (foldr attach [] l)) as [under beside]. simpl in Happ, Hall.
  rewrite <- Happ in IH. apply Forall_app in IH as [Hu Hb].
  constructor; [|done]. constructor; [|done].
  eapply Forall_impl; [exact Hall|]. intros t Ht. by apply Z.ltb_lt.
Qed.

Lemma build_loop_frames root flat h stack frames roots :
  Inv h root stack frames roots →
  ∃ h' stack' frames' roots',
    build_loop root (h, stack) flat = Some (h', stack') ∧
    Inv h' root stack' frames' roots' ∧
    plug frames' roots' [] =
      finish frames roots [] (filter (λ s, sec_level s ≠ 0) flat).
Proof.
  revert h stack frames roots.
  induction flat as [|s flat IH]; intros h stack frames roots HI.
  - exists h, stack, frames, roots. simpl. by rewrite finish_nil.
  - rewrite filter_cons. destruct (decide (sec_level s ≠ 0)) as [Hlv|Hlv].
    + destruct (build_step_frames root h stack frames roots s HI Hlv)
        as (h1 & st1 & node & cnew & Hstep & HI1).
      destruct (IH _ _ _ _ HI1) as (h' & st' & f' & r' & Hloop & HI' & Hplug).
      exists h', st', f', r'. cbn [build_loop]. rewrite Hstep. cbn [mbind option_bind].
      split; [done|]. split; [done|]. by rewrite Hplug, finish_step.
    + apply dec_stable in Hlv.
      destruct (IH h stack frames roots HI) as (h' & st' & f' & r' & Hloop & HI' & Hplug).
      exists h', st', f', r'. cbn [build_loop]. unfold build_step. rewrite Hlv.
      done.
Qed.

Lemma build_nested_toc_nest flat :
  build_nested_toc flat = Some (map pyval_of (nest flat)).
Proof.
  unfold build_nested_toc, alloc_list, empty_heap. cbn [lists dicts length app].
  assert (Inv (Heap [] [[]]) 0%nat [] [] []) as HI.
  { split; [apply NoDup_singleton|]. simpl. split; [done|].
    exists []. split; [done|constructor]. }
  destruct (build_loop_frames 0%nat flat _ _ _ _ HI)
    as (h' & st' & f' & r' & -> & [Hnd Hs] & Hplug).
  cbn [mbind option_bind].
  destruct (spine_plug 0%nat h' f' st' r' [] [] Hs ltac:(constructor) Hnd)
    as (l & Hroot & Hcl).
  rewrite Hplug in Hcl. cbn [finish app] in Hcl. fold (nest flat) in Hcl.
  assert (forest_depth (nest flat) ≤ length flat)%nat as Hdepth.
  { etrans; [apply forest_depth_le_size|]. unfold nest. rewrite forest_size_nest.
    apply length_filter. }
  destruct (cleanup_spec h' [0%nat] (S (length flat)) (nest flat) l 0%nat h' Hcl Hroot
              (trims_refl h') ltac:(lia)) as (h'' & -> & [Hl _] & Hclean).
  cbn [mbind option_bind].
  unfold reify_list. rewrite Hl, Hroot. cbn [mbind option_bind].
  apply mapM_Some. apply Forall2_fmap_r.
  apply Forall2_flip. eapply Forall2_impl.
  - apply Forall2_same_length_lookup_2; [by eapply Forall2_length|].
    intros i t a Ht Ha. instantiate (1 := λ t a, cleaned h'' t a ∧ t ∈ nest flat).
    split; [by eapply Forall2_lookup_lr|]. by eapply list_elem_of_lookup_2.
  - intros t a [Hc Hin]. apply reify_spec; [done|].
    apply forest_depth_elem in Hin. lia.
Qed.

(** X12. The builder returns, on every flat list, the nesting by level of
    the entries of non-zero level: read from the last entry back, each entry
    becomes a node that takes as children the nodes following it for as long
    as their level is greater than its own, and stands before the rest. *)
Theorem outline_is_nesting_by_level (flat : list section) :
  build_nested_toc flat = Some (map pyval_of (nest flat)).
Proof. apply build_nested_toc_nest. Qed.

(** X13. In the outline that the builder returns, every child lies at a
    level strictly greater than its parent's. *)
Theorem outline_children_lie_deeper (flat : list section) :
  ∃ forest, build_nested_toc flat = Some (map pyval_of forest) ∧
            Forall nested_by_level forest.
Proof.
  exists (nest flat). split; [apply build_nested_toc_nest|apply nest_nested].
Qed.

(** ** Generating, then loading and reorganizing *)




Lemma run_generate_outcome (doc : option (list element)) (L : Z)
    (write_ok : bool) :
  (run_generate doc L write_ok).1 =
    Done (match doc with Some _ => write_ok | None => false end) ∧
  (is_Some (run_generate doc L write_ok).2 ↔
   (run_generate doc L write_ok).1 = Done true).
Proof.
  unfold run_generate. destruct doc as [body|].
  - rewrite parse_false.
    destruct (build_nested_toc_forest (flat_section <$> headings L body))
      as (forest & -> & _).
    destruct write_ok; simpl; (split; [done|]); split; done.
  - simpl. split; [done|]. split; [by intros [? [=]]|done].
Qed.

(** X14. Generation never ends in an exception of the outline builder: it
    returns [True] exactly when the document opens and the outline file can
    be written, and [False] otherwise. *)
Theorem generate_succeeds_when_written (doc : option (list element)) (L : Z)
    (write_ok : bool) :
  (run_generate doc L write_ok).1 =
    Done (match doc with Some _ => write_ok | None => false end) ∧
  (is_Some (run_generate doc L write_ok).2 ↔
   (run_generate doc L write_ok).1 = Done true).
Proof. apply run_generate_outcome. Qed.




Lemma run_reorganize_saved (E : env) (a : args) (toc : option pyval)
    (doc : option (list element)) :
  (returned (run_reorganize E a toc doc) = Done true ↔
   is_Some (saved (run_reorganize E a toc doc))) ∧
  (∀ out, saved (run_reorganize E a toc doc) = Some out →
          new_document (run_reorganize E a toc doc) = Some out).
Proof.
  unfold run_reorganize.
  destruct (load_toc_config_for_reorganize toc) as [Tv|];
    [|split; [split; [done|by intros [? [=]]]|done]].
  destruct (parse_document_structure doc (max_level a) true) as [ss|];
    [|split; [split; [done|by intros [? [=]]]|done]].
  destruct (heading_strings Tv) as [T|];
    [|split; [split; [done|by intros [? [=]]]|done]].
  destruct (reconcile E a T _) as [[plan| |] lg];
    [|split; [split; [done|by intros [? [=]]]|done]..].
  destruct (emit E plan) as [b n].
  destruct (save_ok E); simpl.
  - split; [split; [by eauto|done]|by intros ? [= <-]].
  - split; [split; [done|by intros [? [=]]]|done].
Qed.


(** ** The command line *)

(** X18. The exit status tells whether the output exists: [main] ends with
    status 0 exactly when the command has written its output, the outline
    for [generate] and the new document for [reorganize], and with status 1
    otherwise; when a check of the paths fails, nothing is written. *)
Theorem exit_status_tells_output_written (cmd : command) (fs : files) (E : env)
    (toc_file : option pyval) (doc : option (list element)) (write_ok : bool) :
  let e := main cmd fs E toc_file doc write_ok in
  (status e = 0 ∨ status e = 1) ∧
  (status e = 0 ↔
   match cmd with
   | Generate _ => is_Some (outline_written e)
   | Reorganize _ => is_Some (document_saved e)
   end) ∧
  (input_is_file fs = false ∨ output_is_dir fs = true ∨ mkdir_ok fs = false →
   status e = 1 ∧ outline_written e = None ∧ document_saved e = None).
Proof.
  assert (∀ o : option pyval, is_Some o → o ≠ None) as Hs1 by (by intros ? [? ->]).
  assert (∀ o : option (list element), is_Some o → o ≠ None) as Hs2
    by (by intros ? [? ->]).
  unfold main. destruct fs as [inp tocf outd mk]. cbn [input_is_file toc_is_file
    output_is_dir mkdir_ok].
  destruct inp; cbn [negb];
    [|destruct cmd; simpl; (split; [by right|]);
      (split; [split; [done|by intros [? [=]]]|done])].
  destruct cmd as [L|a].
  - destruct outd; [simpl; split; [by right|]; split;
                     [split; [done|by intros [? [=]]]|done]|].
    destruct mk; cbn [negb]; [|simpl; split; [by right|]; split;
                                [split; [done|by intros [? [=]]]|done]].
    pose proof (run_generate_outcome doc L write_ok) as [Hr Hw].
    destruct (run_generate doc L write_ok) as [success file]. simpl in Hr, Hw.
    subst success.
    destruct (match doc with Some _ => write_ok | None => false end); simpl.
    + split; [by left|]. split; [split; [by intros; apply Hw|done]|].
      intros [?|[?|?]]; done.
    + split; [by right|]. split; [|intros [?|[?|?]]; done].
      split; [done|]. intros Hf%Hw. done.
  - destruct tocf; cbn [negb];
      [|simpl; split; [by right|]; split;
        [split; [done|by intros [? [=]]]|tauto]].
    destruct outd; [simpl; split; [by right|]; split;
                     [split; [done|by intros [? [=]]]|done]|].
    destruct mk; cbn [negb]; [|simpl; split; [by right|]; split;
                                [split; [done|by intros [? [=]]]|done]].
    pose proof (run_reorganize_saved E a toc_file doc) as [Hw _].
    destruct (returned (run_reorganize E a toc_file doc)) as [[|]| |]; simpl.
    + split; [by left|]. split; [split; [by intros; apply Hw|done]|].
      intros [?|[?|?]]; done.
    + split; [by right|]. split; [|intros [?|[?|?]]; done].
      split; [done|]. intros Hf%Hw. done.
    + split; [by right|]. split; [|intros [?|[?|?]]; done].
      split; [done|]. intros Hf%Hw. done.
    + split; [by right|]. split; [|intros [?|[?|?]]; done].
      split; [done|]. intros Hf%Hw. done.
Qed.

(** ** Numbered heading styles *)












(** ** Reorganizing twice *)










Section Again.
Context (E : env) (HE : set_iter_ok E).


End Again.



(** ** Outlines written by hand *)

Lemma extract_item_spells t : ∀ v, spells v t → extract_item v = PStr <$> preorder t.
Proof.
  induction t as [hd lv ts IH] using tree_ind'. intros v Hv.
  inversion Hv as [| kvs ? ? l ? Hh Hc Hl | kvs ? ? Hh Hc]; subst.
  - done.
  - rewrite extract_item_dict, Hh, Hc. cbn [preorder fmap list_fmap]. f_equal.
    unfold extract_headings. clear Hv Hh Hc.
    induction Hl as [|x t l ts Hx Hl IHl]; [done|].
    apply Forall_cons in IH as [IHt IH]. cbn [flat_map].
    rewrite fmap_app, (IHt x Hx). f_equal. by apply IHl.
  - rewrite extract_item_dict, Hh. cbn [preorder flat_map fmap list_fmap]. f_equal.
    destruct (dict_get "children" kvs) as [[]|] eqn:Hd; try done.
    by destruct (Hc l).
Qed.

Lemma extract_headings_spells l ts :
  Forall2 spells l ts → extract_headings l = PStr <$> flat_map preorder ts.
Proof.
  unfold extract_headings. induction 1 as [|x t l ts Hx Hl IH]; [done|].
  cbn [flat_map]. by rewrite fmap_app, (extract_item_spells t x Hx), IH.
Qed.

(** X21. The loader reads an outline in pre-order whatever its form: when
    the items under ['toc'] spell a forest, leaves as bare strings or as
    mappings, with or without ['level'] and other keys, the target list is
    the headings of the forest in pre-order; an empty forest is rejected. *)
Theorem loader_reads_preorder (config : list (string * pyval)) (l : list pyval)
    (ts : list tree) :
  dict_get "toc" config = Some (PList l) →
  Forall2 spells l ts →
  load_toc_config_for_reorganize (Some (PDict config)) =
    match ts with
    | [] => None
    | _ => Some (PStr <$> flat_map preorder ts)
    end.
Proof.
  intros Ht Hl. unfold load_toc_config_for_reorganize. rewrite Ht.
  rewrite (extract_headings_spells l ts Hl).
  destruct ts as [|[hd lv cs] ts]; done.
Qed.

Lemma loader_reads_preorder_witness :
  load_toc_config_for_reorganize
    (Some (PDict [("title", PStr "Manual");
                  ("toc", PList [PStr "A";
                                 PDict [("children", PList [PStr "C"]);
                                        ("heading", PStr "B")]])])) =
  Some [PStr "A"; PStr "B"; PStr "C"].
Proof.
  apply (loader_reads_preorder
           [("title", PStr "Manual");
            ("toc", PList [PStr "A";
                           PDict [("children", PList [PStr "C"]);
                                  ("heading", PStr "B")]])]
           [PStr "A"; PDict [("children", PList [PStr "C"]); ("heading", PStr "B")]]
           [Node "A" 1 []; Node "B" 1 [Node "C" 2 []]]).
  - reflexivity.
  - repeat first [apply spells_str | eapply spells_dict; [reflexivity|reflexivity|]
                 | constructor].
Defined.

(** ** Trimmed texts and the maximum level *)

Lemma rstrip_by_idem sp s : rstrip_by sp (rstrip_by sp s) = rstrip_by sp s.
Proof.
  induction s as [|c s IH]; [done|]. cbn [rstrip_by].
  destruct (rstrip_by sp s) as [|a r] eqn:Hr.
  - destruct (sp c) eqn:Hc; [done|]. cbn [rstrip_by]. by rewrite Hc.
  - change (rstrip_by sp (String c (String a r)))
      with (match rstrip_by sp (String a r) with
            | EmptyString => if sp c then EmptyString else String c EmptyString
            | String a' r' => String c (String a' r')
            end).
    by rewrite IH.
Qed.

Lemma rstrip_by_head sp c s :
  sp c = false → ∃ r, rstrip_by sp (String c s) = String c r.
Proof.
  intros Hc. cbn [rstrip_by]. destruct (rstrip_by sp s); [|by eauto].
  rewrite Hc. by eauto.
Qed.

Lemma lstrip_by_head sp s :
  lstrip_by sp s = EmptyString ∨
  ∃ c r, lstrip_by sp s = String c r ∧ sp c = false.
Proof.
  induction s as [|c s IH]; [by left|]. cbn [lstrip_by].
  destruct (sp c) eqn:Hc; [done|]. right. by exists c, s.
Qed.

Lemma strip_idem s : strip (strip s) = strip s.
Proof.
  unfold strip. destruct (lstrip_by_head is_space s) as [->|(c & r & -> & Hc)]; [done|].
  destruct (rstrip_by_head is_space c r Hc) as [r' Hr]. rewrite Hr.
  cbn [lstrip_by]. rewrite Hc, <- Hr. apply rstrip_by_idem.
Qed.

(** X22. The text of every extracted section is trimmed: trimming it again
    changes nothing, in either extraction mode. *)
Theorem section_texts_are_trimmed (L : Z) (inc : bool) (body : list element)
    (ss : list section) (s : section) :
  parse_document_structure (Some body) L inc = Some ss →
  s ∈ ss → strip (sec_text s) = sec_text s.
Proof.
  destruct inc.
  - rewrite parse_true. intros [= <-] [Hs|Hs]%elem_of_app.
    + unfold preamble_of in Hs. destruct (group L body).1; [by apply elem_of_nil in Hs|].
      by apply list_elem_of_singleton in Hs as ->.
    + apply group_heading in Hs as (e & n & t & c & -> & _). apply strip_idem.
  - rewrite parse_false. intros [= <-] (h & -> & _)%list_elem_of_fmap.
    apply strip_idem.
Qed.

Lemma section_texts_are_trimmed_witness : strip "A  B" = "A  B".
Proof.
  apply (section_texts_are_trimmed 6 false
           [Element 0 "{w}p" (Some (Paragraph (Some "Heading 1") "  A  B "))]
           [Sect "A  B" 1 None] (Sect "A  B" 1 None)).
  - reflexivity.
  - by left.
Defined.

Lemma is_heading_style_max p L L' :
  L ≤ L' →
  is_heading_style p L =
    match is_heading_style p L' with
    | Some (n, t) => if n <=? L then Some (n, t) else None
    | None => None
    end.
Proof.
  intros HL. unfold is_heading_style.
  destruct (style_name p) as [[|c name]|]; [done| |done].
  destruct (startswith _ _); [|done].
  destruct (list_last _); [|done]. destruct (py_int _) as [n|]; [|done].
  destruct (1 <=? n) eqn:H1; [|done]. cbn [andb].
  destruct (n <=? L) eqn:H2.
  - assert ((n <=? L') = true) as -> by (apply Z.leb_le; apply Z.leb_le in H2; lia).
    by rewrite H2.
  - destruct (n <=? L'); [by rewrite H2|done].
Qed.

(** X23. Lowering the maximum level only leaves out the deeper headings:
    the headings found up to level [L] are the headings found up to a
    greater level [L'] whose level is at most [L], in the same order and
    with the same texts. *)
Theorem lower_max_level_filters_headings (L L' : Z) (body : list element) :
  L ≤ L' →
  headings L body = filter (λ h, h.1 ≤ L) (headings L' body).
Proof.
  intros HL. unfold headings. induction body as [|e body IH]; [done|].
  assert (classify L e =
          match classify L' e with
          | Some (n, t) => if n <=? L then Some (n, t) else None
          | None => None
          end) as Hc.
  { unfold classify. destruct (scanned_paragraph e) as [p|]; [|done].
    apply (is_heading_style_max p L L' HL). }
  csimpl. rewrite Hc. destruct (classify L' e) as [[n t]|]; [|done].
  rewrite filter_cons. cbn [fst]. destruct (n <=? L) eqn:Hn.
  - rewrite decide_True by (by apply Z.leb_le). by rewrite IH.
  - rewrite decide_False by (apply Z.leb_gt in Hn; lia). done.
Qed.

Lemma lower_max_level_filters_headings_witness :
  headings 1 sample_doc = filter (λ h, h.1 ≤ 1) (headings 6 sample_doc).
Proof. apply (lower_max_level_filters_headings 1 6 sample_doc). lia. Defined.

(** ** Sections that are left out *)




